(** * goderive: the printer of generated code (derive/printer.go)

    A shallow embedding of [printer], its import registry and its
    serialisation, with the properties of the import aliasing algorithm.

    Go strings are byte strings: they are modelled by [string] (a list of
    8-bit [ascii] characters).  The registry [imports map[string]string] is
    a [gmap string string].  A call that panics is modelled by the outcome
    [Panic]; the state a panic leaves behind is kept, since a Go caller may
    recover and go on using the printer. *)

From Stdlib Require Import ZArith Ascii String.
From stdpp Require Import gmap strings list sorting.

Local Open Scope Z_scope.

(** ** Outcomes of calls *)

Inductive outcome (A : Type) : Type :=
| Return (a : A)
| Panic (msg : string).
Arguments Return {A} a.
Arguments Panic {A} msg.

Definition panics {A} (o : outcome A) : Prop :=
  match o with Panic _ => True | Return _ => False end.

(** Go's [error] values, as far as this file meets them: [io.ErrShortWrite],
    which [bytes.Buffer.WriteTo] produces itself, and whatever error a sink
    reports. *)
Inductive error : Type :=
| ErrShortWrite
| SinkError (msg : string).

(** ** The Go library the printer is written against

    Packages [unicode], [fmt] and [io] are not part of the repository.
    Their character tables, the formatter and the destination sink are
    parameters of the development. *)
Class GoLib : Type := {
  (** [unicode.IsLetter] and [unicode.IsDigit] on code points *)
  unicode_IsLetter : Z → bool;
  unicode_IsDigit : Z → bool;
  (** the values of [...interface{}] and [fmt.Sprintf] *)
  fmt_any : Type;
  fmt_Sprintf : string → list fmt_any → string;
  (** an [io.Writer]: [Write] reports how many bytes it took and an error;
      the count is a natural number, [0 <= n] being part of the contract of
      [io.Writer]: a sink that reports a negative count is not modelled *)
  io_Writer : Type;
  io_Write : io_Writer → string → io_Writer * nat * option error
}.

(** ** Bytes and strings *)

Definition byte_val (c : ascii) : Z := Z.of_N (N_of_ascii c).
Definition byte_of (z : Z) : ascii := ascii_of_N (Z.to_N (z mod 256)).

(** [s[n:]] for [n <= len(s)] *)
Fixpoint string_drop (n : nat) (s : string) : string :=
  match n, s with
  | O, _ => s
  | S n', String _ t => string_drop n' t
  | S _, EmptyString => EmptyString
  end.

Fixpoint string_take (n : nat) (s : string) : string :=
  match n, s with
  | O, _ => EmptyString
  | S n', String c t => String c (string_take n' t)
  | S _, EmptyString => EmptyString
  end.

Definition len (s : string) : Z := Z.of_nat (String.length s).

(** [strings.LastIndex(s, sep)]: the index of the last instance of [sep] in
    [s], or -1.  The scan runs left to right and remembers the last match. *)
Fixpoint last_index_from (sep s : string) (i last : Z) : Z :=
  let last' := if String.prefix sep s then i else last in
  match s with
  | EmptyString => last'
  | String _ t => last_index_from sep t (i + 1) last'
  end.

Definition strings_LastIndex (s sep : string) : Z :=
  last_index_from sep s 0 (-1).

(** [strings.Index(s, sep)]: the index of the first instance of [sep] in
    [s], or -1. *)
Fixpoint index_from (sep s : string) (i : Z) : Z :=
  if String.prefix sep s then i
  else
    match s with
    | EmptyString => -1
    | String _ t => index_from sep t (i + 1)
    end.

Definition strings_Index (s sep : string) : Z := index_from sep s 0.

(** [strings.Count(s, sep)] and [strings.Split(s, sep)] for the separator
    [String sep0 sep'], which is not empty by its type (printer.go splits at
    an underscore; the empty separator, which splits into UTF-8 sequences,
    has a branch of its own in Go).

    [Count] is the loop
    [for { i := Index(s, sep); if i == -1 { return n }; n++; s = s[i+len(sep):] }].
    Every turn takes a byte or more off [s], so [String.length s] turns are
    enough. *)
Fixpoint count_loop (fuel : nat) (s sep : string) : Z :=
  match fuel with
  | O => 0
  | S fuel' =>
    let i := strings_Index s sep in
    if decide (i = -1) then 0
    else 1 + count_loop fuel' (string_drop (Z.to_nat (i + len sep)) s) sep
  end.

Definition strings_Count (s : string) (sep0 : ascii) (sep' : string) : Z :=
  count_loop (String.length s) s (String sep0 sep').

(** the loop of [genSplit]: [n] more cuts at most, then the rest *)
Fixpoint split_loop (n : nat) (s sep : string) : list string :=
  match n with
  | O => [s]
  | S n' =>
    let m := strings_Index s sep in
    if decide (m < 0) then [s]
    else string_take (Z.to_nat m) s
           :: split_loop n' (string_drop (Z.to_nat (m + len sep)) s) sep
  end.

(** [genSplit(s, sep, 0, -1)] *)
Definition strings_Split (s : string) (sep0 : ascii) (sep' : string) : list string :=
  let sep := String sep0 sep' in
  let n := strings_Count s sep0 sep' + 1 in
  let n := if decide (len s + 1 < n) then len s + 1 else n in
  let n := n - 1 in
  split_loop (Z.to_nat n) s sep.

(** ** UTF-8, as package [unicode/utf8] decodes and encodes it *)

Definition RuneError : Z := 0xFFFD.
Definition MaxRune : Z := 0x10FFFF.
Definition surrogateMin : Z := 0xD800.
Definition surrogateMax : Z := 0xDFFF.

(** the table [first]: information about the first byte of an encoding *)
Definition utf8_first (b : Z) : Z :=
  if b <? 0x80 then 0xF0        (* as: ASCII *)
  else if b <? 0xC2 then 0xF1   (* xx: invalid *)
  else if b <=? 0xDF then 0x02  (* s1 *)
  else if b =? 0xE0 then 0x13   (* s2 *)
  else if b <=? 0xEC then 0x03  (* s3 *)
  else if b =? 0xED then 0x23   (* s4 *)
  else if b <=? 0xEF then 0x03  (* s3 *)
  else if b =? 0xF0 then 0x34   (* s5 *)
  else if b <=? 0xF3 then 0x04  (* s6 *)
  else if b =? 0xF4 then 0x44   (* s7 *)
  else 0xF1.

(** [acceptRanges]: the bounds of the second byte *)
Definition utf8_acceptRanges (i : Z) : Z * Z :=
  if i =? 0 then (0x80, 0xBF)
  else if i =? 1 then (0xA0, 0xBF)
  else if i =? 2 then (0x80, 0x9F)
  else if i =? 3 then (0x90, 0xBF)
  else if i =? 4 then (0x80, 0x8F)
  else (0, 0).

Definition cont_ok (c : ascii) : bool :=
  (0x80 <=? byte_val c) && (byte_val c <=? 0xBF).

(** [utf8.DecodeRuneInString]: the first rune of [s] and its width *)
Definition utf8_DecodeRuneInString (s : string) : Z * nat :=
  match s with
  | EmptyString => (RuneError, 0%nat)
  | String c0 t0 =>
    let s0 := byte_val c0 in
    let x := utf8_first s0 in
    if 0xF0 <=? x then
      ((if x =? 0xF0 then s0 else RuneError), 1%nat)
    else
      let sz := Z.land x 7 in
      let accept := utf8_acceptRanges (Z.shiftr x 4) in
      match t0 with
      | EmptyString => (RuneError, 1%nat)
      | String c1 t1 =>
        let s1 := byte_val c1 in
        if (s1 <? accept.1) || (accept.2 <? s1) then (RuneError, 1%nat)
        else if sz <=? 2 then
          (Z.lor (Z.shiftl (Z.land s0 0x1F) 6) (Z.land s1 0x3F), 2%nat)
        else
          match t1 with
          | EmptyString => (RuneError, 1%nat)
          | String c2 t2 =>
            let s2 := byte_val c2 in
            if negb (cont_ok c2) then (RuneError, 1%nat)
            else if sz <=? 3 then
              (Z.lor (Z.lor (Z.shiftl (Z.land s0 0x0F) 12)
                            (Z.shiftl (Z.land s1 0x3F) 6))
                     (Z.land s2 0x3F), 3%nat)
            else
              match t2 with
              | EmptyString => (RuneError, 1%nat)
              | String c3 _ =>
                let s3 := byte_val c3 in
                if negb (cont_ok c3) then (RuneError, 1%nat)
                else
                  (Z.lor (Z.lor (Z.lor (Z.shiftl (Z.land s0 0x07) 18)
                                       (Z.shiftl (Z.land s1 0x3F) 12))
                                (Z.shiftl (Z.land s2 0x3F) 6))
                         (Z.land s3 0x3F), 4%nat)
              end
          end
      end
  end.

(** the runes of [for _, c := range s]; [fuel] bounds the number of runes,
    and [String.length s] is always enough, every rune taking a byte or
    more *)
Fixpoint runes_fuel (fuel : nat) (s : string) : list Z :=
  match fuel with
  | O => []
  | S fuel' =>
    match s with
    | EmptyString => []
    | String _ _ =>
      let '(r, width) := utf8_DecodeRuneInString s in
      r :: runes_fuel fuel' (string_drop width s)
    end
  end.

Definition runes (s : string) : list Z := runes_fuel (String.length s) s.

(** [utf8.AppendRune]: the encoding of [r]; what is no code point is
    encoded as [RuneError] *)
Definition utf8_EncodeRune (r : Z) : string :=
  if (0 <=? r) && (r <=? 0x7F) then String (byte_of r) EmptyString
  else if (0 <=? r) && (r <=? 0x7FF) then
    String (byte_of (Z.lor 0xC0 (Z.shiftr r 6)))
      (String (byte_of (Z.lor 0x80 (Z.land r 0x3F))) EmptyString)
  else
    let r3 :=
      if (r <? 0) || (MaxRune <? r) || ((surrogateMin <=? r) && (r <=? surrogateMax))
      then Some RuneError
      else if r <=? 0xFFFF then Some r else None in
    match r3 with
    | Some r =>
      String (byte_of (Z.lor 0xE0 (Z.shiftr r 12)))
        (String (byte_of (Z.lor 0x80 (Z.land (Z.shiftr r 6) 0x3F)))
          (String (byte_of (Z.lor 0x80 (Z.land r 0x3F))) EmptyString))
    | None =>
      String (byte_of (Z.lor 0xF0 (Z.shiftr r 18)))
        (String (byte_of (Z.lor 0x80 (Z.land (Z.shiftr r 12) 0x3F)))
          (String (byte_of (Z.lor 0x80 (Z.land (Z.shiftr r 6) 0x3F)))
            (String (byte_of (Z.lor 0x80 (Z.land r 0x3F))) EmptyString)))
    end.

(** [strings.Map(mapping, s)]: every rune of [s] replaced by its image,
    a negative image being dropped *)
Definition strings_Map (mapping : Z → Z) (s : string) : string :=
  foldr (λ r acc, let r' := mapping r in
                  if r' <? 0 then acc else utf8_EncodeRune r' +:+ acc)
        EmptyString (runes s).

(** the characters the printer writes by escape *)
Definition nl : string := String (ascii_of_nat 10) EmptyString.
Definition tab : string := String (ascii_of_nat 9) EmptyString.
Definition dquote : string := String (ascii_of_nat 34) EmptyString.

(** [int64] addition *)
Definition int64_add (a b : Z) : Z :=
  (a + b + 2 ^ 63) mod 2 ^ 64 - 2 ^ 63.

(** ** The helpers of printer.go *)

Section Printer.
Context `{GoLib}.

Definition badToUnderscore (r : Z) : Z :=
  if unicode_IsLetter r || unicode_IsDigit r || (r =? 95) then r else 95.

(** the vendoring marker, and its length 8 *)
Definition vendor_marker : string := "/vendor/".

Definition unvendor (path : string) : string :=
  let lastvendor := strings_LastIndex path vendor_marker in
  if decide (lastvendor ≠ -1) then
    let lastvendor := lastvendor + 8 in
    string_drop (Z.to_nat lastvendor) path
  else path.

Definition makeFullpath (path : string) : string :=
  strings_Map badToUnderscore path.

(** [fullpaths[len(fullpaths)-1]] panics on an empty slice. *)
Definition makeAlias (path : string) : outcome string :=
  let fullpath := strings_Map badToUnderscore path in
  let fullpaths := strings_Split fullpath "_" "" in
  match last fullpaths with
  | Some alias => Return alias
  | None => Panic "index out of range [-1]"
  end.

(** ** The printer *)

(** [w] is the unread content of the [bytes.Buffer]. *)
Record printer : Type := mk_printer {
  pkgName : string;
  w : string;
  indent : string;
  imports : gmap string string;
  hasContent : bool
}.

Definition newPrinter (pkgName : string) : printer :=
  mk_printer pkgName "" "" ∅ false.

Definition set_imports (m : gmap string string) (p : printer) : printer :=
  mk_printer (pkgName p) (w p) (indent p) m (hasContent p).

(** An [Import] is a closure over the printer and over the parameters
    [name] and [path] of [NewImport]; the closure assigns to [path], so the
    captured variables are its state. *)
Record Import : Type := mk_Import {
  name : string;
  path : string
}.

Definition printer_NewImport (name path : string) : Import :=
  mk_Import name path.

(** The body of the closure: the alias, the closure and the printer after
    the call. *)
Definition Import_call (h : Import) (p : printer)
  : outcome string * Import * printer :=
  let path := unvendor (path h) in
  let h' := mk_Import (name h) path in
  let fullpath := makeFullpath path in
  let alias := name h in
  match imports p !! alias with
  | None => (Return alias, h', set_imports (<[alias := path]> (imports p)) p)
  | Some path1 =>
    if decide (path1 = path) then (Return alias, h', p)
    else
      match imports p !! fullpath with
      | Some path2 =>
        if decide (path2 ≠ path) then
          (Panic ("non unique fullpath: " +:+ path2 +:+ " != " +:+ path), h', p)
        else
          (Return fullpath, h', set_imports (<[fullpath := path]> (imports p)) p)
      | None =>
        (Return fullpath, h', set_imports (<[fullpath := path]> (imports p)) p)
      end
  end.

Definition printer_P (format : string) (a : list fmt_any) (p : printer) : printer :=
  mk_printer (pkgName p)
    (w p +:+ fmt_Sprintf (indent p +:+ format +:+ nl) a)
    (indent p) (imports p) true.

Definition printer_In (p : printer) : printer :=
  mk_printer (pkgName p) (w p) (indent p +:+ tab) (imports p) (hasContent p).

Definition printer_Out (p : printer) : outcome unit * printer :=
  if decide (0 < len (indent p)) then
    (Return tt,
     mk_printer (pkgName p) (w p) (string_drop 1 (indent p)) (imports p)
       (hasContent p))
  else
    (Panic "bug in code generator: unindenting more than has been indented", p).

Definition printer_HasContent (p : printer) : bool := hasContent p.

(** ** Serialisation *)

(** [bytes.Buffer.WriteTo] on a buffer whose unread content is [b]: the
    count and the error, the unread content left, and the sink after the
    call.  Nothing is written from an empty buffer; the buffer panics when
    the sink reports more bytes than it was given. *)
Definition Buffer_WriteTo (b : string) (file : io_Writer)
  : outcome (Z * option error) * string * io_Writer :=
  if decide (0 < len b) then
    let '(file', m, e) := io_Write file b in
    if decide (len b < Z.of_nat m) then
      (Panic "bytes.Buffer.WriteTo: invalid Write count", b, file')
    else
      match e with
      | Some e => (Return (Z.of_nat m, Some e), string_drop m b, file')
      | None =>
        if decide (Z.of_nat m ≠ len b) then
          (Return (Z.of_nat m, Some ErrShortWrite), string_drop m b, file')
        else (Return (Z.of_nat m, None), "", file')
      end
  else (Return (0, None), "", file).

(** The loop [for qual, path := range p.imports]: Go visits the entries of
    a map in an order of its own choosing, here the list [ord], a
    permutation of the entries.  The loop fills [pathToQual] and [paths]. *)
Definition range_pathToQual (ord : list (string * string)) : gmap string string :=
  foldl (λ m e, <[e.2 := e.1]> m) ∅ ord.

Definition range_paths (ord : list (string * string)) : list string := ord.*2.

(** [sort.Strings]: ascending, bytes compared as unsigned *)
Definition sort_Strings (l : list string) : list string :=
  merge_sort String.le l.

(** one line of the import block; a missing key of a Go map reads as the
    empty string *)
Definition import_line (pathToQual : gmap string string) (path : string) : string :=
  let qual := default "" (pathToQual !! path) in
  if decide (qual = path) then tab +:+ dquote +:+ path +:+ dquote +:+ nl
  else tab +:+ qual +:+ " " +:+ dquote +:+ path +:+ dquote +:+ nl.

Fixpoint concat_strings (l : list string) : string :=
  match l with
  | [] => ""
  | s :: l' => s +:+ concat_strings l'
  end.

Definition import_block (ord : list (string * string)) : string :=
  nl +:+ "import (" +:+ nl
  +:+ concat_strings (import_line (range_pathToQual ord) <$> sort_Strings (range_paths ord))
  +:+ ")" +:+ nl.

(** the content of the buffer [top] *)
Definition top_of (p : printer) (ord : list (string * string)) : string :=
  "// Code generated by goderive DO NOT EDIT." +:+ nl
  +:+ nl
  +:+ "package " +:+ pkgName p +:+ nl
  +:+ (if decide (0 < size (imports p))%nat then import_block ord else "").

Definition set_w (b : string) (p : printer) : printer :=
  mk_printer (pkgName p) b (indent p) (imports p) (hasContent p).

Definition printer_WriteTo (p : printer) (ord : list (string * string))
    (file : io_Writer) : outcome (Z * option error) * printer * io_Writer :=
  let top := top_of p ord in
  let '(r1, _, file1) := Buffer_WriteTo top file in
  match r1 with
  | Panic msg => (Panic msg, p, file1)
  | Return (n1, Some err) => (Return (n1, Some err), p, file1)
  | Return (n1, None) =>
    let '(r2, b, file2) := Buffer_WriteTo (w p) file1 in
    match r2 with
    | Panic msg => (Panic msg, set_w b p, file2)
    | Return (n2, err) => (Return (int64_add n1 n2, err), set_w b p, file2)
    end
  end.

(** ** Runs

    The caller holds one printer and the closures [NewImport] gave it; a
    run is a sequence of its calls.  Closures are named by their index in
    the store. *)
Record state : Type := mk_state {
  pr : printer;
  closures : list Import
}.

Inductive op : Type :=
| OpNewImport (name path : string)
| OpCall (i : nat)
| OpP (format : string) (a : list fmt_any)
| OpIn
| OpOut
| OpHasContent
| OpWriteTo (ord : list (string * string)) (file : io_Writer).

Inductive value : Type :=
| VUnit
| VImport (i : nat)
| VString (s : string)
| VBool (b : bool)
| VWritten (n : Z) (err : option error) (file : io_Writer).

Definition map_outcome {A B} (f : A → B) (o : outcome A) : outcome B :=
  match o with Return a => Return (f a) | Panic msg => Panic msg end.

(** Calling a closure that was never made is calling a nil function. *)
Definition exec (o : op) (σ : state) : outcome value * state :=
  match o with
  | OpNewImport name path =>
    (Return (VImport (length (closures σ))),
     mk_state (pr σ) (closures σ ++ [printer_NewImport name path]))
  | OpCall i =>
    match closures σ !! i with
    | Some h =>
      let '(r, h', p') := Import_call h (pr σ) in
      (map_outcome VString r, mk_state p' (<[i := h']> (closures σ)))
    | None => (Panic "invalid memory address or nil pointer dereference", σ)
    end
  | OpP format a => (Return VUnit, mk_state (printer_P format a (pr σ)) (closures σ))
  | OpIn => (Return VUnit, mk_state (printer_In (pr σ)) (closures σ))
  | OpOut =>
    let '(r, p') := printer_Out (pr σ) in
    (map_outcome (λ _, VUnit) r, mk_state p' (closures σ))
  | OpHasContent => (Return (VBool (printer_HasContent (pr σ))), σ)
  | OpWriteTo ord file =>
    let '(r, p', file') := printer_WriteTo (pr σ) ord file in
    (map_outcome (λ ne, VWritten ne.1 ne.2 file') r, mk_state p' (closures σ))
  end.

(** the outcomes of a run, in order, and the state it ends in *)
Fixpoint run (ops : list op) (σ : state) : list (outcome value) * state :=
  match ops with
  | [] => ([], σ)
  | o :: ops' =>
    let '(r, σ') := exec o σ in
    let '(rs, σ'') := run ops' σ' in
    (r :: rs, σ'')
  end.

Definition init (pkgName : string) : state := mk_state (newPrinter pkgName) [].

End Printer.

(** ** A library instance for the examples

    The tables of package [unicode] cut down to Latin-1 (as Go's own fast
    path for [r <= MaxLatin1] has them; nothing above U+00FF is a letter or
    a digit here), a formatter that prints a format without verbs as it is,
    and a sink with bounded room that reports an error when it is full. *)
Definition latin1_IsLetter (r : Z) : bool :=
  ((0x41 <=? r) && (r <=? 0x5A)) || ((0x61 <=? r) && (r <=? 0x7A))
  || (r =? 0xAA) || (r =? 0xB5) || (r =? 0xBA)
  || ((0xC0 <=? r) && (r <=? 0xD6)) || ((0xD8 <=? r) && (r <=? 0xF6))
  || ((0xF8 <=? r) && (r <=? 0xFF)).

Definition latin1_IsDigit (r : Z) : bool := (0x30 <=? r) && (r <=? 0x39).

Record bounded_sink : Type := mk_sink {
  received : string;
  room : nat
}.

Definition bounded_Write (f : bounded_sink) (data : string)
  : bounded_sink * nat * option error :=
  if decide (String.length data ≤ room f)%nat then
    (mk_sink (received f +:+ data) (room f - String.length data),
     String.length data, None)
  else
    (mk_sink (received f +:+ string_take (room f) data) 0,
     room f, Some (SinkError "sink is full")).

Definition example_lib : GoLib := {|
  unicode_IsLetter := latin1_IsLetter;
  unicode_IsDigit := latin1_IsDigit;
  fmt_any := Empty_set;
  fmt_Sprintf := λ format _, format;
  io_Writer := bounded_sink;
  io_Write := bounded_Write
|}.

(** ** Vocabulary of the properties *)

(** [sep] stands in [s] at index [k] *)
Definition occurs (sep s : string) (k : nat) : Prop :=
  String.prefix sep (string_drop k s) = true.

(** [d] indent units *)
Fixpoint tabs (d : nat) : string :=
  match d with
  | O => ""
  | S d' => String (ascii_of_nat 9) (tabs d')
  end.

(** no path is registered under two keys *)
Definition one_key_per_path (m : gmap string string) : Prop :=
  ∀ k1 k2 v, m !! k1 = Some v → m !! k2 = Some v → k1 = k2.

(** the line of a registered reference, key first *)
Definition entry_line (e : string * string) : string :=
  if decide (e.1 = e.2) then tab +:+ dquote +:+ e.2 +:+ dquote +:+ nl
  else tab +:+ e.1 +:+ " " +:+ dquote +:+ e.2 +:+ dquote +:+ nl.

(** entries in ascending order of path *)
Definition path_le (e1 e2 : string * string) : Prop := String.le e1.2 e2.2.

Section Vocabulary.
Context `{GoLib}.

(** the canonical path of a reference: its path with the vendoring prefix
    stripped *)
Definition canonical (h : Import) : string := unvendor (path h).

(** two closure states of one reference: the name is fixed and the path
    normalises to the same canonical path *)
Definition same_ref (h h' : Import) : Prop :=
  name h' = name h ∧ canonical h' = canonical h.

(** the condition of the fatal branch *)
Definition fullpath_conflict (h : Import) (p : printer) : Prop :=
  ∃ path1 path2,
    imports p !! name h = Some path1 ∧ path1 ≠ canonical h ∧
    imports p !! makeFullpath (canonical h) = Some path2 ∧ path2 ≠ canonical h.

(** the state in which the call at position [a] of a run starts *)
Definition state_before (ops : list op) (σ : state) (a : nat) : state :=
  (run (take a ops) σ).2.

(** the outcome of the call at position [a] *)
Definition outcome_at (ops : list op) (σ : state) (a : nat) : option (outcome value) :=
  (run ops σ).1 !! a.

(** closure [i] of the store is a reference declared for [raw] under the
    preferred name [n]: the closure [NewImport(n, raw)] made, called or not *)
Definition declared (σ : state) (i : nat) (n raw : string) : Prop :=
  ∃ h, closures σ !! i = Some h ∧ name h = n ∧ canonical h = unvendor raw.

(** [raw] is [rest], bare or behind a vendoring prefix that ends with the
    last marker of [raw] *)
Definition strip_prefix (raw rest : string) : Prop :=
  raw = rest
  ∨ ∃ pre, raw = pre +:+ vendor_marker +:+ rest
           ∧ strings_LastIndex raw vendor_marker = len pre.

(** the registered paths are canonical *)
Definition canonical_values (p : printer) : Prop :=
  map_Forall (λ _ v, unvendor v = v) (imports p).

(** the error of a write of [data] of which the sink took [m] bytes,
    reporting [e]: the sink's own error, or a short write *)
Definition write_error (data : string) (m : nat) (e : option error) : option error :=
  match e with
  | Some err => Some err
  | None => if decide (Z.of_nat m ≠ len data) then Some ErrShortWrite else None
  end.

End Vocabulary.

(** ** Runs for the examples *)

Section ExampleRuns.
Local Existing Instance example_lib.

(** two references that collide on the name [fmt], one of them declared
    twice, and a line of content *)
Definition collision_ops : list op :=
  [OpNewImport "fmt" "fmt"; OpNewImport "fmt" "example.com/pkg/fmt";
   OpCall 0; OpCall 1; OpNewImport "fmt" "example.com/pkg/fmt"; OpCall 2;
   OpCall 1; OpCall 0; OpIn; OpP "x := fmt.Sprint(1)" []; OpOut].

(** one path under two preferred names *)
Definition alias_ops : list op :=
  [OpNewImport "fmt" "fmt"; OpNewImport "f" "fmt"; OpCall 0; OpCall 1].

(** two paths under the empty name *)
Definition empty_name_ops : list op :=
  [OpNewImport "" "a"; OpNewImport "" "b"; OpCall 0; OpCall 1].

(** two paths with one full-path key *)
Definition conflict_ops : list op :=
  [OpNewImport "x" "a"; OpNewImport "x" "b.c"; OpNewImport "x" "b/c";
   OpCall 0; OpCall 1; OpCall 2].

(** a vendored path and the path itself *)
Definition vendored_ops : list op :=
  [OpNewImport "d" "github.com/a/b/vendor/github.com/c/d";
   OpNewImport "d" "github.com/c/d"; OpCall 0; OpCall 1].

End ExampleRuns.

(** ** Vocabulary of the further properties *)

(** every byte of [s] is below 0x80 *)
Fixpoint ascii_only (s : string) : bool :=
  match s with
  | EmptyString => true
  | String c t => (byte_val c <? 0x80) && ascii_only t
  end.

Fixpoint string_map (f : ascii → ascii) (s : string) : string :=
  match s with
  | EmptyString => EmptyString
  | String c t => String (f c) (string_map f t)
  end.

Fixpoint string_forall (P : ascii → bool) (s : string) : bool :=
  match s with
  | EmptyString => true
  | String c t => P c && string_forall P t
  end.

(** the pieces of [l] with [sep] between them *)
Fixpoint join (sep : string) (l : list string) : string :=
  match l with
  | [] => ""
  | [x] => x
  | x :: l' => x +:+ sep +:+ join sep l'
  end.

(** the preferred name decides the canonical path among the closures *)
Definition consistent_names (cl : list Import) (canon : Import → string) : Prop :=
  ∀ i j hi hj, cl !! i = Some hi → cl !! j = Some hj →
    name hi = name hj → canon hi = canon hj.

Section FurtherVocabulary.
Context `{GoLib}.

(** a byte that [badToUnderscore] keeps *)
Definition kept (c : ascii) : bool :=
  unicode_IsLetter (byte_val c) || unicode_IsDigit (byte_val c)
  || (byte_val c =? 95).

(** the depth of indentation after [ops], from depth [d]: a counter that
    [In] raises and [Out] lowers unless it is 0 *)
Fixpoint depth_from (d : nat) (ops : list op) : nat :=
  match ops with
  | [] => d
  | OpIn :: ops' => depth_from (S d) ops'
  | OpOut :: ops' => depth_from (pred d) ops'
  | _ :: ops' => depth_from d ops'
  end.

(** the lines [ops] print, from depth [d] *)
Fixpoint content_from (d : nat) (ops : list op) : string :=
  match ops with
  | [] => ""
  | OpP format a :: ops' =>
    fmt_Sprintf (tabs d +:+ format +:+ nl) a +:+ content_from d ops'
  | OpIn :: ops' => content_from (S d) ops'
  | OpOut :: ops' => content_from (pred d) ops'
  | _ :: ops' => content_from d ops'
  end.

(** every entry of the registry is the name and the canonical path of a
    closure *)
Definition entries_of_closures (σ : state) : Prop :=
  ∀ k v, imports (pr σ) !! k = Some v →
    ∃ i h, closures σ !! i = Some h ∧ name h = k ∧ canonical h = v.

End FurtherVocabulary.

Section FurtherExampleRuns.
Local Existing Instance example_lib.

(** lines at several depths, and an [Out] too many *)
Definition indent_ops : list op :=
  [OpP "func f() {" []; OpIn; OpP "g()" []; OpOut; OpP "}" []; OpOut;
   OpNewImport "fmt" "fmt"; OpHasContent].

(** the panic of [conflict_ops], and the same call once more *)
Definition conflict_again_ops : list op :=
  [OpNewImport "x" "a"; OpNewImport "x" "b.c"; OpNewImport "x" "b/c";
   OpCall 0; OpCall 1; OpCall 2; OpNewImport "y" "d"; OpCall 2].

End FurtherExampleRuns.

(** * Properties *)

(** ** Strings *)

Lemma string_drop_nil n : string_drop n "" = "".
Proof. by destruct n. Qed.

Lemma string_drop_drop n m s :
  string_drop n (string_drop m s) = string_drop (m + n) s.
Proof.
  revert s. induction m as [|m IH]; intros s; [done|].
  destruct s as [|c t]; simpl; [apply string_drop_nil | apply IH].
Qed.

Lemma string_drop_length n s :
  String.length (string_drop n s) = (String.length s - n)%nat.
Proof.
  revert s. induction n as [|n IH]; intros [|c t]; simpl; auto with lia.
Qed.

Lemma string_drop_app s t : string_drop (String.length s) (s +:+ t) = t.
Proof. induction s as [|c s IH]; [done | apply IH]. Qed.

Lemma string_app_length s t :
  String.length (s +:+ t) = (String.length s + String.length t)%nat.
Proof. induction s as [|c s IH]; simpl; [done | by rewrite IH]. Qed.

Lemma prefix_length sep s :
  String.prefix sep s = true → (String.length sep ≤ String.length s)%nat.
Proof.
  revert s. induction sep as [|a sep IH]; intros [|b s]; simpl; try lia; try done.
  destruct (ascii_dec a b); [|done]. intros Hp. apply IH in Hp. lia.
Qed.

Lemma last_index_from_spec sep s i last :
  (last_index_from sep s i last = last
   ∧ ∀ k, (k ≤ String.length s)%nat → ¬ occurs sep s k)
  ∨ (∃ k, (k ≤ String.length s)%nat
        ∧ last_index_from sep s i last = i + Z.of_nat k
        ∧ occurs sep s k
        ∧ ∀ k', (k < k' ≤ String.length s)%nat → ¬ occurs sep s k').
Proof.
  revert i last. induction s as [|c t IH]; intros i last.
  - cbn [last_index_from String.length]. destruct (String.prefix sep "") eqn:Hp.
    + right. exists 0%nat. split_and!; [lia | lia | done | intros; lia].
    + left. split; [done|]. intros k Hk. replace k with 0%nat by lia.
      unfold occurs. cbn [string_drop]. by rewrite Hp.
  - cbn [last_index_from].
    destruct (IH (i + 1) (if String.prefix sep (String c t) then i else last))
      as [[Hr Hno] | (k & Hk & Hr & Hocc & Hlast)].
    + destruct (String.prefix sep (String c t)) eqn:Hp.
      * right. exists 0%nat. split_and!; [simpl; lia | lia | done |].
        intros [|k'] Hk'; [lia|]. unfold occurs. cbn [string_drop].
        apply Hno. simpl in Hk'. lia.
      * left. split; [done|]. intros [|k] Hk.
        -- unfold occurs. cbn [string_drop]. by rewrite Hp.
        -- unfold occurs. cbn [string_drop]. apply Hno. simpl in Hk. lia.
    + right. exists (S k). split_and!; [simpl; lia | lia | done |].
      intros [|k'] Hk'; [lia|]. unfold occurs. cbn [string_drop].
      apply Hlast. simpl in Hk'. lia.
Qed.

(** [strings.LastIndex] finds the last place where [sep] stands, or
    answers -1 when there is none. *)
Lemma strings_LastIndex_spec s sep :
  (strings_LastIndex s sep = -1
   ∧ ∀ k, (k ≤ String.length s)%nat → ¬ occurs sep s k)
  ∨ (∃ k, (k ≤ String.length s)%nat
        ∧ strings_LastIndex s sep = Z.of_nat k
        ∧ occurs sep s k
        ∧ ∀ k', (k < k' ≤ String.length s)%nat → ¬ occurs sep s k').
Proof.
  unfold strings_LastIndex.
  destruct (last_index_from_spec sep s 0 (-1)) as [?|(k & ? & ? & ? & ?)]; [by left|].
  right. exists k. split_and!; [done | lia | done | done].
Qed.

Section UnvendorFacts.
Context `{GoLib}.

Lemma unvendor_cases raw :
  (unvendor raw = raw ∧ ∀ k, (k ≤ String.length raw)%nat → ¬ occurs vendor_marker raw k)
  ∨ (∃ k, (k + 8 ≤ String.length raw)%nat
        ∧ unvendor raw = string_drop (k + 8) raw
        ∧ occurs vendor_marker raw k
        ∧ ∀ k', (k < k' ≤ String.length raw)%nat → ¬ occurs vendor_marker raw k').
Proof.
  unfold unvendor.
  destruct (strings_LastIndex_spec raw vendor_marker)
    as [[Hr Hno] | (k & Hk & Hr & Hocc & Hlast)]; rewrite Hr.
  - left. by rewrite decide_False by lia.
  - right. exists k. rewrite decide_True by lia.
    assert (k + 8 ≤ String.length raw)%nat as Hfit.
    { apply prefix_length in Hocc. rewrite string_drop_length in Hocc.
      simpl in Hocc. lia. }
    split_and!; [done | | done | done].
    f_equal. lia.
Qed.

(** The slice [path[lastvendor:]] is always within bounds. *)
Lemma unvendor_slice_in_range raw :
  strings_LastIndex raw vendor_marker ≠ -1 →
  0 ≤ strings_LastIndex raw vendor_marker + 8 ≤ len raw.
Proof.
  intros Hne.
  destruct (strings_LastIndex_spec raw vendor_marker)
    as [[Hr Hno] | (k & Hk & Hr & Hocc & Hlast)]; [done|].
  apply prefix_length in Hocc. rewrite string_drop_length in Hocc.
  simpl in Hocc. unfold len. lia.
Qed.

Lemma unvendor_no_marker raw :
  (∀ k, (k ≤ String.length raw)%nat → ¬ occurs vendor_marker raw k) →
  unvendor raw = raw.
Proof.
  intros Hno. destruct (unvendor_cases raw) as [[? ?] | (k & Hk & _ & Hocc & _)]; [done|].
  exfalso. apply (Hno k); [lia | done].
Qed.

(** Normalising a normalised path changes nothing: the closure may assign
    [unvendor(path)] to [path] at every call. *)
Lemma unvendor_idemp raw : unvendor (unvendor raw) = unvendor raw.
Proof.
  destruct (unvendor_cases raw) as [[Hu ?] | (k & Hk & Hu & Hocc & Hlast)];
    rewrite Hu; [by rewrite Hu|].
  apply unvendor_no_marker. intros k2 Hk2 Hocc2.
  rewrite string_drop_length in Hk2.
  unfold occurs in Hocc2. rewrite string_drop_drop in Hocc2.
  apply (Hlast (k + 8 + k2)%nat); [lia | done].
Qed.

(** A path that ends after its last marker normalises to what follows. *)
Lemma unvendor_vendored pre rest :
  strings_LastIndex (pre +:+ vendor_marker +:+ rest) vendor_marker = len pre →
  unvendor (pre +:+ vendor_marker +:+ rest) = rest.
Proof.
  intros Hlast. unfold unvendor. rewrite Hlast.
  rewrite decide_True by (unfold len; lia).
  replace (Z.to_nat (len pre + 8)) with (String.length pre + 8)%nat
    by (unfold len; lia).
  rewrite <- string_drop_drop, string_drop_app.
  apply (string_drop_app vendor_marker rest).
Qed.

End UnvendorFacts.

(** ** The registry *)

Section RegistryFacts.
Context `{GoLib}.

Lemma Import_call_closure h p :
  (Import_call h p).1.2 = mk_Import (name h) (canonical h).
Proof. unfold canonical, Import_call. by repeat case_match. Qed.

Lemma Import_call_same_ref h p : same_ref h (Import_call h p).1.2.
Proof.
  rewrite Import_call_closure. split; [done|].
  unfold canonical. cbn [path]. apply unvendor_idemp.
Qed.

(** The call reads the closure through its name and canonical path only. *)
Lemma Import_call_ext h1 h2 p :
  same_ref h1 h2 → Import_call h2 p = Import_call h1 p.
Proof.
  intros [Hn Hc]. unfold canonical in Hc. unfold Import_call.
  by rewrite Hn, Hc.
Qed.

Lemma Import_call_fresh h p :
  imports p !! name h = None →
  Import_call h p =
    (Return (name h), mk_Import (name h) (canonical h),
     set_imports (<[name h := canonical h]> (imports p)) p).
Proof. intros Hn. unfold canonical, Import_call. by rewrite Hn. Qed.

Lemma Import_call_reuse h p :
  imports p !! name h = Some (canonical h) →
  Import_call h p = (Return (name h), mk_Import (name h) (canonical h), p).
Proof.
  intros Hn. unfold canonical in *. unfold Import_call.
  rewrite Hn. by rewrite decide_True.
Qed.

Lemma Import_call_fallback h p path1 :
  imports p !! name h = Some path1 → path1 ≠ canonical h →
  (imports p !! makeFullpath (canonical h) = None
   ∨ imports p !! makeFullpath (canonical h) = Some (canonical h)) →
  Import_call h p =
    (Return (makeFullpath (canonical h)), mk_Import (name h) (canonical h),
     set_imports (<[makeFullpath (canonical h) := canonical h]> (imports p)) p).
Proof.
  intros Hn Hne Hf. unfold canonical in *. unfold Import_call.
  rewrite Hn. rewrite decide_False by done.
  destruct Hf as [-> | ->]; [done|]. by rewrite decide_False by auto.
Qed.

Lemma Import_call_conflict h p path1 path2 :
  imports p !! name h = Some path1 → path1 ≠ canonical h →
  imports p !! makeFullpath (canonical h) = Some path2 → path2 ≠ canonical h →
  Import_call h p =
    (Panic ("non unique fullpath: " +:+ path2 +:+ " != " +:+ canonical h),
     mk_Import (name h) (canonical h), p).
Proof.
  intros Hn Hne Hf Hne2. unfold canonical in *. unfold Import_call.
  rewrite Hn, Hf. rewrite decide_False by done. by rewrite decide_True.
Qed.

(** The four branches of the closure are the only ones. *)
Lemma Import_call_cases h p :
  imports p !! name h = None
  ∨ imports p !! name h = Some (canonical h)
  ∨ (∃ path1, imports p !! name h = Some path1 ∧ path1 ≠ canonical h
       ∧ (imports p !! makeFullpath (canonical h) = None
          ∨ imports p !! makeFullpath (canonical h) = Some (canonical h)))
  ∨ fullpath_conflict h p.
Proof.
  destruct (imports p !! name h) as [path1|] eqn:Hn; [|by left].
  destruct (decide (path1 = canonical h)) as [->|Hne]; [by right; left|].
  right; right.
  destruct (imports p !! makeFullpath (canonical h)) as [path2|] eqn:Hf.
  - destruct (decide (path2 = canonical h)) as [->|Hne2].
    + left. exists path1. auto.
    + right. exists path1, path2. rewrite Hn. auto.
  - left. exists path1. auto.
Qed.

(** A call never removes or remaps a key. *)
Lemma Import_call_mono h p : imports p ⊆ imports (Import_call h p).2.
Proof.
  destruct (Import_call_cases h p)
    as [Hn | [Hn | [(path1 & Hn & Hne & Hf) | (path1 & path2 & Hn & Hne & Hf & Hne2)]]].
  - rewrite Import_call_fresh by done. cbn. by apply insert_subseteq.
  - by rewrite Import_call_reuse.
  - rewrite (Import_call_fallback h p path1) by done. cbn.
    destruct Hf as [Hf|Hf]; [by apply insert_subseteq | by rewrite insert_id].
  - by rewrite (Import_call_conflict h p path1 path2).
Qed.

(** The name a call returns is registered for the canonical path. *)
Lemma Import_call_registered h p x :
  (Import_call h p).1.1 = Return x →
  imports (Import_call h p).2 !! x = Some (canonical h).
Proof.
  destruct (Import_call_cases h p)
    as [Hn | [Hn | [(path1 & Hn & Hne & Hf) | (path1 & path2 & Hn & Hne & Hf & Hne2)]]].
  - rewrite Import_call_fresh by done. cbn. intros [= <-]. apply lookup_insert_eq.
  - rewrite Import_call_reuse by done. cbn. by intros [= <-].
  - rewrite (Import_call_fallback h p path1) by done. cbn. intros [= <-].
    apply lookup_insert_eq.
  - by rewrite (Import_call_conflict h p path1 path2).
Qed.

(** Once a call of a reference has returned, every call of the same
    reference on a larger registry returns the same name. *)
Lemma Import_call_stable h p x h2 p2 :
  (Import_call h p).1.1 = Return x →
  imports (Import_call h p).2 ⊆ imports p2 →
  same_ref h h2 →
  (Import_call h2 p2).1.1 = Return x.
Proof.
  intros Hret Hsub Href. rewrite (Import_call_ext h h2) by done.
  destruct (Import_call_cases h p)
    as [Hn | [Hn | [(path1 & Hn & Hne & Hf) | (path1 & path2 & Hn & Hne & Hf & Hne2)]]].
  - rewrite Import_call_fresh in Hret, Hsub by done. cbn in Hret, Hsub.
    injection Hret as <-.
    rewrite Import_call_reuse; [done|].
    eapply lookup_weaken; [apply lookup_insert_eq | done].
  - rewrite Import_call_reuse in Hret, Hsub by done. cbn in Hret, Hsub.
    injection Hret as <-.
    rewrite Import_call_reuse; [done|]. by eapply lookup_weaken.
  - rewrite (Import_call_fallback h p path1) in Hret, Hsub by done.
    cbn in Hret, Hsub. injection Hret as <-.
    assert (makeFullpath (canonical h) ≠ name h) as Hfn.
    { intros Heq. rewrite Heq, Hn in Hf. destruct Hf; simplify_eq. }
    rewrite (Import_call_fallback h p2 path1); [done | | done |].
    + eapply lookup_weaken; [|done]. by rewrite lookup_insert_ne.
    + right. eapply lookup_weaken; [apply lookup_insert_eq | done].
  - by rewrite (Import_call_conflict h p path1 path2) in Hret.
Qed.

(** *** Steps and runs keep the registry *)

Lemma same_ref_refl h : same_ref h h.
Proof. by split. Qed.

Lemma same_ref_trans h1 h2 h3 : same_ref h1 h2 → same_ref h2 h3 → same_ref h1 h3.
Proof. intros [? ?] [? ?]. split; congruence. Qed.

Local Hint Resolve same_ref_refl : core.

Lemma printer_WriteTo_imports p ord file :
  imports (printer_WriteTo p ord file).1.2 = imports p.
Proof.
  unfold printer_WriteTo. repeat case_match; simplify_eq/=; done.
Qed.

Lemma printer_Out_imports p : imports (printer_Out p).2 = imports p.
Proof. unfold printer_Out. by case_decide. Qed.

Lemma exec_mono o σ :
  imports (pr σ) ⊆ imports (pr (exec o σ).2)
  ∧ ∀ i h, closures σ !! i = Some h →
      ∃ h', closures (exec o σ).2 !! i = Some h' ∧ same_ref h h'.
Proof.
  destruct o as [n raw|j|format a| | | |ord file]; cbn [exec].
  - split; [done|]. intros i h Hi. exists h. split; [|done].
    cbn. by apply lookup_app_l_Some.
  - destruct (closures σ !! j) as [hj|] eqn:Hj; [|by split; eauto].
    pose proof (Import_call_mono hj (pr σ)) as Hm.
    pose proof (Import_call_same_ref hj (pr σ)) as Hr.
    destruct (Import_call hj (pr σ)) as [[r h'] p']. cbn in *.
    split; [done|]. intros i h Hi.
    destruct (decide (i = j)) as [->|Hij].
    + exists h'. simplify_eq. split; [|done].
      apply list_lookup_insert_eq. by eapply lookup_lt_Some.
    + exists h. by rewrite list_lookup_insert_ne.
  - split; [done|]; eauto.
  - split; [done|]; eauto.
  - pose proof (printer_Out_imports (pr σ)) as Hi.
    destruct (printer_Out (pr σ)) as [r p']. cbn in *. rewrite Hi.
    split; [done|]; eauto.
  - split; [done|]; eauto.
  - pose proof (printer_WriteTo_imports (pr σ) ord file) as Hi.
    destruct (printer_WriteTo (pr σ) ord file) as [[r p'] file']. cbn in *.
    rewrite Hi. split; [done|]; eauto.
Qed.

Lemma run_mono ops σ :
  imports (pr σ) ⊆ imports (pr (run ops σ).2)
  ∧ ∀ i h, closures σ !! i = Some h →
      ∃ h', closures (run ops σ).2 !! i = Some h' ∧ same_ref h h'.
Proof.
  revert σ. induction ops as [|o ops IH]; intros σ; cbn [run].
  { split; [done|]. intros i h Hi. exists h. by split. }
  destruct (exec_mono o σ) as [Hsub Hcl].
  destruct (exec o σ) as [r σ1]. cbn in Hsub, Hcl.
  destruct (IH σ1) as [Hsub' Hcl'].
  destruct (run ops σ1) as [rs σ2]. cbn in *.
  split; [by etrans|]. intros i h Hi.
  destruct (Hcl i h Hi) as (h1 & Hi1 & Hr1).
  destruct (Hcl' i h1 Hi1) as (h2 & Hi2 & Hr2).
  exists h2. split; [done | by eapply same_ref_trans].
Qed.

End RegistryFacts.

Section RunFacts.
Context `{GoLib}.

Lemma run_cons o ops σ :
  run (o :: ops) σ =
    ((exec o σ).1 :: (run ops (exec o σ).2).1, (run ops (exec o σ).2).2).
Proof.
  cbn [run]. destruct (exec o σ) as [r σ1]; cbn [fst snd].
  by destruct (run ops σ1).
Qed.

Lemma run_lookup ops σ a o :
  ops !! a = Some o →
  (run ops σ).1 !! a = Some (exec o (state_before ops σ a)).1
  ∧ (run ops σ).2 = (run (drop (S a) ops) (exec o (state_before ops σ a)).2).2.
Proof.
  unfold state_before. revert σ a.
  induction ops as [|o' ops IH]; intros σ a Ha; [done|].
  destruct a as [|a].
  - injection Ha as ->. rewrite run_cons. cbn [take drop run fst snd]. done.
  - cbn in Ha. cbn [take drop]. rewrite !run_cons. cbn [fst snd].
    apply (IH (exec o' σ).2 a Ha).
Qed.

Lemma outcome_at_exec ops σ a o :
  ops !! a = Some o →
  outcome_at ops σ a = Some (exec o (state_before ops σ a)).1.
Proof. intros Ha. by apply run_lookup. Qed.

(** the state before a later call is reached from the state after an
    earlier one *)
Lemma state_before_later ops σ a b o :
  (a < b)%nat → ops !! a = Some o →
  state_before ops σ b =
    (run (drop (S a) (take b ops)) (exec o (state_before ops σ a)).2).2.
Proof.
  intros Hab Ha.
  assert (take b ops !! a = Some o) as Ha' by (by rewrite lookup_take_lt).
  destruct (run_lookup (take b ops) σ a o Ha') as [_ Hrun].
  unfold state_before in *. rewrite take_take in Hrun.
  by replace (a `min` b)%nat with a in Hrun by lia.
Qed.

Lemma exec_call_return σ i x :
  (exec (OpCall i) σ).1 = Return (VString x) →
  ∃ h, closures σ !! i = Some h
       ∧ (Import_call h (pr σ)).1.1 = Return x
       ∧ pr (exec (OpCall i) σ).2 = (Import_call h (pr σ)).2.
Proof.
  cbn [exec]. destruct (closures σ !! i) as [h|]; [|done].
  destruct (Import_call h (pr σ)) as [[r h'] p'] eqn:Hc. cbn.
  destruct r as [y|msg]; [|done]. intros [= ->]. exists h. rewrite Hc. by split_and!.
Qed.

Lemma exec_call_closure σ i h :
  closures σ !! i = Some h →
  (exec (OpCall i) σ).1 = map_outcome VString (Import_call h (pr σ)).1.1.
Proof.
  intros Hi. cbn [exec]. rewrite Hi.
  by destruct (Import_call h (pr σ)) as [[r h'] p'].
Qed.

(** A name a call returned is registered for the canonical path of its
    reference from then on. *)
Lemma returned_name_registered ops σ a i x :
  ops !! a = Some (OpCall i) →
  outcome_at ops σ a = Some (Return (VString x)) →
  ∃ h, closures (state_before ops σ a) !! i = Some h
       ∧ imports (pr (run ops σ).2) !! x = Some (canonical h).
Proof.
  intros Ha Hx. rewrite (outcome_at_exec _ _ _ _ Ha) in Hx.
  injection Hx as Hx.
  destruct (exec_call_return _ _ _ Hx) as (h & Hi & Hret & Hpr).
  exists h. split; [done|].
  destruct (run_lookup ops σ a _ Ha) as [_ ->].
  eapply lookup_weaken; [|apply run_mono].
  rewrite Hpr. by apply Import_call_registered.
Qed.

(** The call of a reference after a call of the same reference that
    returned [x] returns [x]. *)
Lemma later_call_same_name ops σ a b i j hi hj x :
  (a < b)%nat →
  ops !! a = Some (OpCall i) → ops !! b = Some (OpCall j) →
  closures (state_before ops σ a) !! i = Some hi →
  closures (state_before ops σ b) !! j = Some hj →
  same_ref hi hj →
  outcome_at ops σ a = Some (Return (VString x)) →
  outcome_at ops σ b = Some (Return (VString x)).
Proof.
  intros Hab Ha Hb Hi Hj Href Hx.
  rewrite (outcome_at_exec _ _ _ _ Ha) in Hx. injection Hx as Hx.
  rewrite (outcome_at_exec _ _ _ _ Hb). f_equal.
  destruct (exec_call_return _ _ _ Hx) as (h & Hi' & Hret & Hpr).
  simplify_eq.
  rewrite (exec_call_closure _ _ _ Hj).
  rewrite (Import_call_stable hi (pr (state_before ops σ a)) x); [done..| |done].
  rewrite (state_before_later ops σ a b _ Hab Ha), <- Hpr.
  apply run_mono.
Qed.

(** A closure keeps its name and its canonical path through a run. *)
Lemma closure_later ops σ a b o i h :
  (a < b)%nat → ops !! a = Some o →
  closures (state_before ops σ a) !! i = Some h →
  ∃ h', closures (state_before ops σ b) !! i = Some h' ∧ same_ref h h'.
Proof.
  intros Hab Ha Hi.
  rewrite (state_before_later ops σ a b _ Hab Ha).
  destruct (exec_mono o (state_before ops σ a)) as [_ Hcl].
  destruct (Hcl i h Hi) as (h1 & Hi1 & Hr1).
  destruct (run_mono (drop (S a) (take b ops)) (exec o (state_before ops σ a)).2)
    as [_ Hcl'].
  destruct (Hcl' i h1 Hi1) as (h2 & Hi2 & Hr2).
  exists h2. split; [done | by eapply same_ref_trans].
Qed.

(** [NewImport] declares the reference it is asked for, and a run keeps
    the declaration. *)
Lemma declared_NewImport σ n raw :
  declared (exec (OpNewImport n raw) σ).2 (length (closures σ)) n raw.
Proof.
  exists (mk_Import n raw). cbn. split; [|done].
  by rewrite lookup_app_r, Nat.sub_diag.
Qed.

Lemma declared_run ops σ i n raw :
  declared σ i n raw → declared (run ops σ).2 i n raw.
Proof.
  intros (h & Hi & Hn & Hc).
  destruct (run_mono ops σ) as [_ Hcl].
  destruct (Hcl i h Hi) as (h' & Hi' & Hn' & Hc').
  exists h'. split; [done|]. split; congruence.
Qed.

End RunFacts.

(** ** The full-path key *)

Lemma byte_val_nonneg c : 0 ≤ byte_val c.
Proof. unfold byte_val. lia. Qed.

Lemma utf8_DecodeRuneInString_nonneg s : 0 ≤ (utf8_DecodeRuneInString s).1.
Proof.
  unfold utf8_DecodeRuneInString, RuneError.
  repeat case_match; cbn [fst]; try lia; try apply byte_val_nonneg;
    repeat (first [ apply Z.lor_nonneg; split
                  | apply Z.shiftl_nonneg
                  | apply Z.land_nonneg; right; lia ]).
Qed.

Lemma utf8_EncodeRune_nonempty r : utf8_EncodeRune r ≠ "".
Proof. unfold utf8_EncodeRune. by repeat case_match. Qed.

Lemma string_app_nonempty s t : s ≠ "" → s +:+ t ≠ "".
Proof. by destruct s. Qed.

Section FullpathFacts.
Context `{GoLib}.

Lemma badToUnderscore_nonneg r : 0 ≤ r → 0 ≤ badToUnderscore r.
Proof. unfold badToUnderscore. case_match; lia. Qed.

(** The key of a path is empty only for the empty path: every rune of the
    path, and every byte that is no rune, leaves a byte or more. *)
Lemma makeFullpath_empty raw : makeFullpath raw = "" ↔ raw = "".
Proof.
  split; [|by intros ->].
  destruct raw as [|c t]; [done|]. intros Hempty. exfalso.
  unfold makeFullpath, strings_Map, runes in Hempty.
  cbn [String.length runes_fuel] in Hempty.
  pose proof (utf8_DecodeRuneInString_nonneg (String c t)) as Hnn.
  destruct (utf8_DecodeRuneInString (String c t)) as [r width]. cbn [fst] in Hnn.
  cbn [foldr] in Hempty.
  apply badToUnderscore_nonneg in Hnn.
  destruct (badToUnderscore r <? 0) eqn:Hneg; [lia|].
  revert Hempty. apply string_app_nonempty, utf8_EncodeRune_nonempty.
Qed.

End FullpathFacts.

(** ** The claims about the registry *)

Section RegistryClaims.
Context `{GoLib}.

Lemma run_app ops1 ops2 σ :
  (run (ops1 ++ ops2) σ).2 = (run ops2 (run ops1 σ).2).2.
Proof.
  revert σ. induction ops1 as [|o ops1 IH]; intros σ; [done|].
  cbn [app]. rewrite !run_cons. cbn [snd]. apply IH.
Qed.

Lemma state_before_le ops σ a b :
  (a ≤ b)%nat →
  state_before ops σ b = (run (drop a (take b ops)) (state_before ops σ a)).2.
Proof.
  intros Hab. unfold state_before.
  rewrite <- (take_drop a (take b ops)) at 1.
  rewrite run_app, take_take. by replace (a `min` b)%nat with a by lia.
Qed.

Lemma state_before_end ops σ : state_before ops σ (length ops) = (run ops σ).2.
Proof. unfold state_before. by rewrite firstn_all. Qed.

Lemma Import_call_canonical_values h p :
  canonical_values p → canonical_values (Import_call h p).2.
Proof.
  intros Hp. unfold canonical_values in *.
  destruct (Import_call_cases h p)
    as [Hn | [Hn | [(path1 & Hn & Hne & Hf) | (path1 & path2 & Hn & Hne & Hf & Hne2)]]].
  - rewrite Import_call_fresh by done. cbn.
    apply map_Forall_insert_2; [apply unvendor_idemp | done].
  - by rewrite Import_call_reuse.
  - rewrite (Import_call_fallback h p path1) by done. cbn.
    apply map_Forall_insert_2; [apply unvendor_idemp | done].
  - by rewrite (Import_call_conflict h p path1 path2).
Qed.

Lemma exec_canonical_values o σ :
  canonical_values (pr σ) → canonical_values (pr (exec o σ).2).
Proof.
  intros Hp. destruct o as [n raw|j|format a| | | |ord file]; cbn [exec]; try done.
  - destruct (closures σ !! j) as [hj|]; [|done].
    pose proof (Import_call_canonical_values hj (pr σ) Hp) as Hc.
    by destruct (Import_call hj (pr σ)) as [[r h'] p'].
  - pose proof (printer_Out_imports (pr σ)) as Hi.
    destruct (printer_Out (pr σ)) as [r p']. unfold canonical_values in *.
    cbn in *. by rewrite Hi.
  - pose proof (printer_WriteTo_imports (pr σ) ord file) as Hi.
    destruct (printer_WriteTo (pr σ) ord file) as [[r p'] file'].
    unfold canonical_values in *. cbn in *. by rewrite Hi.
Qed.

Lemma run_canonical_values ops σ :
  canonical_values (pr σ) → canonical_values (pr (run ops σ).2).
Proof.
  revert σ. induction ops as [|o ops IH]; intros σ Hp; [done|].
  rewrite run_cons. cbn [snd]. by apply IH, exec_canonical_values.
Qed.

(** C1 (as amended). Once a reference to path [raw] under the preferred
    name [n] has been resolved to the identifier [x], every later
    resolution of a reference declared for the same path under the same
    preferred name returns [x], whatever was registered in between. *)
Theorem same_name_same_path_same_identifier σ ops a b i j n raw x :
  (a < b)%nat →
  ops !! a = Some (OpCall i) → declared (state_before ops σ a) i n raw →
  ops !! b = Some (OpCall j) → declared (state_before ops σ b) j n raw →
  outcome_at ops σ a = Some (Return (VString x)) →
  outcome_at ops σ b = Some (Return (VString x)).
Proof.
  intros Hab Ha (hi & Hi & Hni & Hci) Hb (hj & Hj & Hnj & Hcj) Hx.
  apply (later_call_same_name ops σ a b i j hi hj); try done.
  split; congruence.
Qed.

(** C2. At every point of a run a registered key keeps its path at every
    later point; no two calls of references with distinct canonical paths
    return the same identifier; and in a run of a new printer every
    registered path is canonical. *)
Theorem registry_keys_never_remapped σ ops :
  (∀ a b k v, (a ≤ b)%nat →
     imports (pr (state_before ops σ a)) !! k = Some v →
     imports (pr (state_before ops σ b)) !! k = Some v)
  ∧ (∀ a b i j n1 n2 raw1 raw2 x y,
       ops !! a = Some (OpCall i) → declared (state_before ops σ a) i n1 raw1 →
       ops !! b = Some (OpCall j) → declared (state_before ops σ b) j n2 raw2 →
       unvendor raw1 ≠ unvendor raw2 →
       outcome_at ops σ a = Some (Return (VString x)) →
       outcome_at ops σ b = Some (Return (VString y)) →
       x ≠ y)
  ∧ (∀ a k v, imports (pr σ) = ∅ →
       imports (pr (state_before ops σ a)) !! k = Some v → unvendor v = v).
Proof.
  split_and!.
  - intros a b k v Hab Hk. rewrite (state_before_le ops σ a b Hab).
    eapply lookup_weaken; [done | apply run_mono].
  - intros a b i j n1 n2 raw1 raw2 x y Ha (hi & Hi & Hni & Hci)
      Hb (hj & Hj & Hnj & Hcj) Hne Hx Hy ->.
    destruct (returned_name_registered ops σ a i y Ha Hx) as (hi' & Hi' & Hri).
    destruct (returned_name_registered ops σ b j y Hb Hy) as (hj' & Hj' & Hrj).
    simplify_eq. congruence.
  - intros a k v Hempty Hk.
    assert (canonical_values (pr (state_before ops σ a))) as Hcv.
    { apply run_canonical_values. unfold canonical_values. rewrite Hempty.
      apply map_Forall_empty. }
    by apply (Hcv k v).
Qed.

(** C3 (as amended). Two references with the same preferred name [n] and
    distinct canonical paths, [n] being unregistered when the first is
    resolved: the first gets [n]; the second, when its call returns, gets
    the sanitised full-path key of its canonical path; the two identifiers
    differ; and the second is empty only when its canonical path is (the
    first is the name as given). *)
Theorem name_collision_falls_back_to_fullpath σ ops a b i j n raw1 raw2 y :
  (a < b)%nat →
  ops !! a = Some (OpCall i) → declared (state_before ops σ a) i n raw1 →
  ops !! b = Some (OpCall j) → declared (state_before ops σ b) j n raw2 →
  unvendor raw1 ≠ unvendor raw2 →
  imports (pr (state_before ops σ a)) !! n = None →
  outcome_at ops σ b = Some (Return (VString y)) →
  outcome_at ops σ a = Some (Return (VString n))
  ∧ y = makeFullpath (unvendor raw2)
  ∧ n ≠ y
  ∧ (y = "" ↔ unvendor raw2 = "").
Proof.
  intros Hab Ha (hi & Hi & Hni & Hci) Hb (hj & Hj & Hnj & Hcj) Hne Hfresh Hy.
  assert (outcome_at ops σ a = Some (Return (VString n))) as Hx.
  { rewrite (outcome_at_exec _ _ _ _ Ha), (exec_call_closure _ _ _ Hi).
    rewrite Import_call_fresh by (by rewrite Hni). cbn. by rewrite Hni. }
  split; [done|].
  (* the name is registered for the first path when the second is resolved *)
  assert (imports (pr (state_before ops σ b)) !! n = Some (unvendor raw1)) as Hn.
  { rewrite (state_before_later ops σ a b _ Hab Ha).
    eapply lookup_weaken; [|apply run_mono].
    destruct (exec_call_return (state_before ops σ a) i n) as (h & Hi' & Hret & ->).
    { rewrite (outcome_at_exec _ _ _ _ Ha) in Hx. by injection Hx. }
    simplify_eq. rewrite <- Hci. by apply Import_call_registered. }
  rewrite (outcome_at_exec _ _ _ _ Hb), (exec_call_closure _ _ _ Hj) in Hy.
  injection Hy as Hy.
  rewrite <- Hnj in Hn. rewrite <- Hcj in Hne |- *.
  destruct (Import_call_cases hj (pr (state_before ops σ b)))
    as [Hn' | [Hn' | [(path1 & Hn' & Hne' & Hf) | (path1 & path2 & Hn' & Hne' & Hf & Hne2)]]].
  - congruence.
  - congruence.
  - rewrite (Import_call_fallback hj _ path1) in Hy by done.
    cbn in Hy. injection Hy as <-.
    split_and!; [done | | apply makeFullpath_empty].
    intros Heq. rewrite <- Heq, <- Hnj, Hn' in Hf. destruct Hf; simplify_eq.
  - by rewrite (Import_call_conflict hj _ path1 path2) in Hy.
Qed.

(** C4. The closure panics exactly when, the preferred name being
    registered for another path, the full-path key is registered for a
    path other than the canonical one; in every other case it returns a
    name.  A call that panics leaves the registry as it was. *)
Theorem resolve_panics_iff_fullpath_conflict h p :
  (panics (Import_call h p).1.1 ↔ fullpath_conflict h p)
  ∧ (¬ fullpath_conflict h p → ∃ x, (Import_call h p).1.1 = Return x)
  ∧ (panics (Import_call h p).1.1 → (Import_call h p).2 = p).
Proof.
  destruct (Import_call_cases h p)
    as [Hn | [Hn | [(path1 & Hn & Hne & Hf) | (path1 & path2 & Hn & Hne & Hf & Hne2)]]].
  - rewrite Import_call_fresh by done. cbn. split_and!; [|eauto|done].
    split; [done|]. intros (q1 & q2 & Hq & _). congruence.
  - rewrite Import_call_reuse by done. cbn. split_and!; [|eauto|done].
    split; [done|]. intros (q1 & q2 & Hq & Hq1 & _). congruence.
  - rewrite (Import_call_fallback h p path1) by done. cbn. split_and!; [|eauto|done].
    split; [done|]. intros (q1 & q2 & _ & _ & Hq & Hq2). destruct Hf; congruence.
  - rewrite (Import_call_conflict h p path1 path2) by done. cbn.
    split_and!; [|intros []|done].
    + split; [|done]. intros _. by exists path1, path2.
    + by exists path1, path2.
Qed.

(** C6. Two raw paths that are the same path behind different vendoring
    prefixes (each prefix ending with the last marker of its path, or
    absent) have the same canonical path; references to them under one
    preferred name resolve alike in every registry; and once one of them
    has been resolved, a later resolution of the other returns the same
    identifier. *)
Theorem vendored_paths_resolve_alike raw1 raw2 rest n :
  strip_prefix raw1 rest → strip_prefix raw2 rest →
  unvendor raw1 = unvendor raw2
  ∧ (∀ p, Import_call (printer_NewImport n raw2) p
          = Import_call (printer_NewImport n raw1) p)
  ∧ (∀ σ ops a b i j x, (a < b)%nat →
       ops !! a = Some (OpCall i) → declared (state_before ops σ a) i n raw1 →
       ops !! b = Some (OpCall j) → declared (state_before ops σ b) j n raw2 →
       outcome_at ops σ a = Some (Return (VString x)) →
       outcome_at ops σ b = Some (Return (VString x))).
Proof.
  intros H1 H2.
  assert (∀ raw, strip_prefix raw rest → unvendor raw = unvendor rest) as Hstrip.
  { intros raw [->|(pre & -> & Hlast)]; [done|].
    rewrite <- (unvendor_vendored pre rest Hlast) at 2.
    by rewrite unvendor_idemp. }
  assert (unvendor raw1 = unvendor raw2) as Heq
    by (by rewrite (Hstrip raw1), (Hstrip raw2)).
  split_and!; [done | |].
  - intros p. by apply Import_call_ext.
  - intros σ ops a b i j x Hab Ha (hi & Hi & Hni & Hci) Hb (hj & Hj & Hnj & Hcj) Hx.
    apply (later_call_same_name ops σ a b i j hi hj); try done.
    split; congruence.
Qed.

(** C7. When a call of a closure has returned a name, every later call of
    the same closure returns that name, whatever the run did in between. *)
Theorem resolve_idempotent σ ops a b i x :
  (a < b)%nat →
  ops !! a = Some (OpCall i) → ops !! b = Some (OpCall i) →
  outcome_at ops σ a = Some (Return (VString x)) →
  outcome_at ops σ b = Some (Return (VString x)).
Proof.
  intros Hab Ha Hb Hx.
  assert (∃ h, closures (state_before ops σ a) !! i = Some h) as [h Hi].
  { rewrite (outcome_at_exec _ _ _ _ Ha) in Hx. injection Hx as Hx.
    destruct (exec_call_return _ _ _ Hx) as (h & Hi & _). by exists h. }
  destruct (closure_later ops σ a b _ i h Hab Ha Hi) as (h' & Hi' & Href).
  by apply (later_call_same_name ops σ a b i i h h').
Qed.

End RegistryClaims.

(** ** Indentation *)

Lemma tabs_snoc d : tabs d +:+ tab = tabs (S d).
Proof.
  induction d as [|d IH]; [done|].
  change (String (ascii_of_nat 9) (tabs d +:+ tab) = tabs (S (S d))).
  by rewrite IH.
Qed.

Lemma tabs_length d : len (tabs d) = Z.of_nat d.
Proof. unfold len. induction d as [|d IH]; [done|]. cbn in *. lia. Qed.

Section IndentClaims.
Context `{GoLib}.

Lemma exec_indent_tabs o σ :
  (∃ d, indent (pr σ) = tabs d) → ∃ d, indent (pr (exec o σ).2) = tabs d.
Proof.
  intros [d Hd].
  destruct o as [n raw|j|format a| | | |ord file]; cbn [exec]; try by exists d.
  - destruct (closures σ !! j) as [hj|]; [|by exists d].
    unfold Import_call. exists d. by repeat case_match; simplify_eq/=.
  - exists (S d). cbn. by rewrite Hd, tabs_snoc.
  - unfold printer_Out. case_decide; [|by exists d]. cbn. rewrite Hd.
    destruct d as [|d]; [by exists 0%nat | by exists d].
  - exists d. unfold printer_WriteTo. by repeat case_match; simplify_eq/=.
Qed.

(** The indentation of a printer in use is a row of indent units. *)
Lemma run_indent_tabs ops pkg :
  ∃ d, indent (pr (run ops (init pkg)).2) = tabs d.
Proof.
  assert (∀ σ, (∃ d, indent (pr σ) = tabs d) →
               ∃ d, indent (pr (run ops σ).2) = tabs d) as Hrun.
  { induction ops as [|o ops IH]; intros σ Hσ; [done|].
    rewrite run_cons. cbn [snd]. by apply IH, exec_indent_tabs. }
  apply Hrun. by exists 0%nat.
Qed.

(** C8. [Out] panics exactly when the indentation is empty, and then
    changes nothing; otherwise it returns, takes one byte off the
    indentation and leaves the rest of the printer alone.  On an
    indentation of [d] units, as every run of a new printer has it, it
    panics exactly when [d] is 0 and otherwise leaves [d - 1] units: the
    depth never goes below zero. *)
Theorem Out_panics_iff_depth_zero p :
  (panics (printer_Out p).1 ↔ len (indent p) = 0)
  ∧ (panics (printer_Out p).1 → (printer_Out p).2 = p)
  ∧ (0 < len (indent p) →
       (printer_Out p).1 = Return tt
       ∧ len (indent (printer_Out p).2) = len (indent p) - 1
       ∧ (∃ c, indent p = String c (indent (printer_Out p).2))
       ∧ pkgName (printer_Out p).2 = pkgName p
       ∧ w (printer_Out p).2 = w p
       ∧ imports (printer_Out p).2 = imports p
       ∧ hasContent (printer_Out p).2 = hasContent p)
  ∧ (∀ d, indent p = tabs d →
       (panics (printer_Out p).1 ↔ d = 0%nat)
       ∧ indent (printer_Out p).2 = tabs (d - 1)
       ∧ indent (printer_In p) = tabs (S d))
  ∧ (∀ pkg ops, ∃ d, indent (pr (run ops (init pkg)).2) = tabs d).
Proof.
  assert (0 ≤ len (indent p)) as Hnn by (unfold len; lia).
  split_and!.
  - unfold printer_Out. case_decide; cbn; [|split; [lia|done]].
    split; [done | lia].
  - unfold printer_Out. by case_decide.
  - intros Hpos. unfold printer_Out. rewrite decide_True by done. cbn.
    destruct (indent p) as [|c t] eqn:Hind; [unfold len in Hpos; simpl in Hpos; lia|].
    cbn. split_and!; try done; [unfold len; cbn; lia | by exists c].
  - intros d Hd. unfold printer_Out, printer_In. rewrite Hd.
    pose proof (tabs_length d). split_and!.
    + case_decide; cbn; [|split; [lia|done]]. split; [done | lia].
    + case_decide; cbn; [|assert (d = 0%nat) as -> by lia; done].
      destruct d as [|d]; [done|]. cbn. by rewrite Nat.sub_0_r.
    + cbn. apply tabs_snoc.
  - intros pkg ops. apply run_indent_tabs.
Qed.

End IndentClaims.

(** ** Serialisation *)

Lemma string_drop_all s : string_drop (String.length s) s = "".
Proof. induction s as [|c s IH]; [done | apply IH]. Qed.

Lemma len_pos_nonempty s : 0 < len s ↔ s ≠ "".
Proof. unfold len. destruct s; cbn; split; try done; lia. Qed.

Lemma int64_add_exact n1 n2 :
  0 ≤ n1 → 0 ≤ n2 → n1 + n2 < 2 ^ 63 → int64_add n1 n2 = n1 + n2.
Proof.
  intros ? ? ?. unfold int64_add.
  rewrite Z.mod_small by lia. lia.
Qed.

Section SerialiseClaims.
Context `{GoLib}.

Lemma Buffer_WriteTo_empty file :
  Buffer_WriteTo "" file = (Return (0, None), "", file).
Proof. done. Qed.

(** A buffer with content hands it to the sink in one [Write]. *)
Lemma Buffer_WriteTo_write b file f m e :
  b ≠ "" → io_Write file b = (f, m, e) → Z.of_nat m ≤ len b →
  Buffer_WriteTo b file =
    (Return (Z.of_nat m, write_error b m e), string_drop m b, f).
Proof.
  intros Hb Hw Hm. unfold Buffer_WriteTo, write_error.
  rewrite decide_True by (by apply len_pos_nonempty).
  rewrite Hw. rewrite decide_False by lia.
  destruct e as [err|]; [done|]. case_decide; [done|].
  replace m with (String.length b) by (unfold len in *; lia).
  by rewrite string_drop_all.
Qed.

(** After a write without error the buffer is empty. *)
Lemma Buffer_WriteTo_success b file n b' file' :
  Buffer_WriteTo b file = (Return (n, None), b', file') → b' = "".
Proof.
  unfold Buffer_WriteTo. repeat case_match; intros; simplify_eq/=; done.
Qed.

Lemma top_of_nonempty p ord : top_of p ord ≠ "".
Proof. done. Qed.

(** C9. [WriteTo] under a sink that keeps the contract of [io.Writer]
    ([Write] takes no more than it is given).  When the write of the
    header and import block fails (an error of the sink, or a short
    write), [WriteTo] returns the bytes that write took together with that
    error, the content buffer is not written and stays as it was.
    Otherwise the content, if there is any, is written next, and [WriteTo]
    returns the sum of the two counts with the error of the second write;
    the sum is exact below 2^63. *)
Theorem WriteTo_count_and_first_error p ord file f1 m1 e1 :
  io_Write file (top_of p ord) = (f1, m1, e1) →
  Z.of_nat m1 ≤ len (top_of p ord) →
  (∀ err, write_error (top_of p ord) m1 e1 = Some err →
     printer_WriteTo p ord file = (Return (Z.of_nat m1, Some err), p, f1))
  ∧ (write_error (top_of p ord) m1 e1 = None →
       (w p = "" →
          printer_WriteTo p ord file =
            (Return (int64_add (Z.of_nat m1) 0, None), set_w "" p, f1))
       ∧ (∀ f2 m2 e2, w p ≠ "" →
            io_Write f1 (w p) = (f2, m2, e2) → Z.of_nat m2 ≤ len (w p) →
            printer_WriteTo p ord file =
              (Return (int64_add (Z.of_nat m1) (Z.of_nat m2), write_error (w p) m2 e2),
               set_w (string_drop m2 (w p)) p, f2)))
  ∧ (∀ n1 n2, 0 ≤ n1 → 0 ≤ n2 → n1 + n2 < 2 ^ 63 → int64_add n1 n2 = n1 + n2).
Proof.
  intros Hw1 Hm1.
  pose proof (Buffer_WriteTo_write (top_of p ord) file f1 m1 e1
                (top_of_nonempty p ord) Hw1 Hm1) as Htop.
  split_and!.
  - intros err Herr. unfold printer_WriteTo. by rewrite Htop, Herr.
  - intros Hok. split.
    + intros Hempty. unfold printer_WriteTo.
      by rewrite Htop, Hok, Hempty, Buffer_WriteTo_empty.
    + intros f2 m2 e2 Hne Hw2 Hm2. unfold printer_WriteTo.
      by rewrite Htop, Hok, (Buffer_WriteTo_write (w p) f1 f2 m2 e2).
  - apply int64_add_exact.
Qed.

(** A printer without content writes its header block and nothing else. *)
Lemma WriteTo_header_only p ord file f m e :
  io_Write file (top_of p ord) = (f, m, e) →
  Z.of_nat m ≤ len (top_of p ord) →
  (printer_WriteTo (set_w "" p) ord file).2 = f
  ∧ (write_error (top_of p ord) m e = None →
       printer_WriteTo (set_w "" p) ord file =
         (Return (int64_add (Z.of_nat m) 0, None), set_w "" p, f)).
Proof.
  intros Hw Hm. unfold printer_WriteTo.
  change (top_of (set_w "" p) ord) with (top_of p ord).
  rewrite (Buffer_WriteTo_write (top_of p ord) file f m e
             (top_of_nonempty p ord) Hw Hm).
  destruct (write_error (top_of p ord) m e) as [err|]; [done|].
  change (w (set_w "" p)) with "". by rewrite Buffer_WriteTo_empty.
Qed.

(** C10. After a [WriteTo] that returned without error the content buffer
    is empty and the rest of the printer is as before; a second [WriteTo]
    builds the same header, package clause and import block and hands
    them to its sink in one [Write], and the sink gets nothing else. *)
Theorem WriteTo_consumes_content p ord file n p' file' :
  printer_WriteTo p ord file = (Return (n, None), p', file') →
  w p' = ""
  ∧ p' = set_w "" p
  ∧ (∀ ord2, top_of p' ord2 = top_of p ord2)
  ∧ (∀ ord2 file2 f m e,
       io_Write file2 (top_of p ord2) = (f, m, e) →
       Z.of_nat m ≤ len (top_of p ord2) →
       (printer_WriteTo p' ord2 file2).2 = f
       ∧ (write_error (top_of p ord2) m e = None →
            printer_WriteTo p' ord2 file2 =
              (Return (int64_add (Z.of_nat m) 0, None), p', f))).
Proof.
  intros Hwt.
  assert (p' = set_w "" p) as Hp'.
  { unfold printer_WriteTo in Hwt.
    destruct (Buffer_WriteTo (top_of p ord) file) as [[r1 b1] file1].
    destruct r1 as [[n1 [err|]]|msg]; [done| |done].
    destruct (Buffer_WriteTo (w p) file1) as [[r2 b2] file2] eqn:Hb.
    destruct r2 as [[n2 err2]|msg]; [|done].
    injection Hwt as <- -> <- <-.
    by rewrite (Buffer_WriteTo_success _ _ _ _ _ Hb). }
  subst p'. split_and!; [done | done | done |].
  intros ord2 file2 f m e Hw Hm.
  destruct (WriteTo_header_only p ord2 file2 f m e Hw Hm) as [Hsink Hok].
  split; [done|]. intros Hnone. by rewrite Hok.
Qed.

End SerialiseClaims.

(** ** The import block *)

Lemma range_pathToQual_snoc ord e :
  range_pathToQual (ord ++ [e]) = <[e.2 := e.1]> (range_pathToQual ord).
Proof. unfold range_pathToQual. by rewrite foldl_app. Qed.

Lemma range_pathToQual_elem ord k v :
  range_pathToQual ord !! v = Some k → (k, v) ∈ ord.
Proof.
  induction ord as [|[k' v'] ord IH] using rev_ind; [done|].
  rewrite range_pathToQual_snoc. cbn [fst snd].
  destruct (decide (v' = v)) as [->|Hne].
  - rewrite lookup_insert_eq. intros [= ->]. set_solver.
  - rewrite lookup_insert_ne by done. set_solver.
Qed.

Lemma range_pathToQual_lookup ord k v :
  NoDup ord.*2 → (k, v) ∈ ord → range_pathToQual ord !! v = Some k.
Proof.
  induction ord as [|[k' v'] ord IH] using rev_ind; [set_solver|].
  rewrite fmap_app, range_pathToQual_snoc. cbn [fst snd fmap list_fmap].
  intros [Hnd [Hdisj _]]%NoDup_app Hin.
  apply elem_of_app in Hin as [Hin|Hin].
  - rewrite lookup_insert_ne; [by apply IH|].
    intros ->. apply (Hdisj v); [|set_solver].
    apply list_elem_of_fmap. by exists (k, v).
  - apply list_elem_of_singleton in Hin as [= -> ->]. apply lookup_insert_eq.
Qed.

Lemma range_pathToQual_perm ord ord' :
  NoDup ord.*2 → ord ≡ₚ ord' → range_pathToQual ord = range_pathToQual ord'.
Proof.
  intros Hnd Hperm.
  assert (NoDup ord'.*2) as Hnd' by (by rewrite <- Hperm).
  apply map_eq. intros v. apply option_eq. intros k. split; intros Hk.
  - apply range_pathToQual_lookup; [done|].
    rewrite <- Hperm. by apply range_pathToQual_elem.
  - apply range_pathToQual_lookup; [done|].
    rewrite Hperm. by apply range_pathToQual_elem.
Qed.

Lemma sort_Strings_perm l l' : l ≡ₚ l' → sort_Strings l = sort_Strings l'.
Proof.
  intros Hperm. unfold sort_Strings.
  apply (Sorted_unique String.le); [apply Sorted_merge_sort; apply _..|].
  by rewrite !merge_sort_Permutation.
Qed.

Lemma one_key_per_path_NoDup m :
  one_key_per_path m → NoDup (map_to_list m).*2.
Proof.
  intros Hone. apply NoDup_fmap_2_strong; [|apply NoDup_map_to_list].
  intros [k1 v1] [k2 v2] Hin1%elem_of_map_to_list Hin2%elem_of_map_to_list Heq.
  cbn in Heq. subst v2. f_equal. by eapply Hone.
Qed.

(** X16. A registry that is not empty and registers no path under two
    keys: whatever order the map is visited in, the header is followed by
    an import block with one line for every registered reference, in
    ascending order of path, the path alone when the key is the path and
    the key before the path otherwise; the text is the same for every
    order of the visit. *)
Theorem import_block_sorted_by_path p ord :
  ord ≡ₚ map_to_list (imports p) →
  imports p ≠ ∅ →
  one_key_per_path (imports p) →
  (∃ L, L ≡ₚ map_to_list (imports p)
        ∧ Sorted path_le L
        ∧ top_of p ord =
            "// Code generated by goderive DO NOT EDIT." +:+ nl
            +:+ nl
            +:+ "package " +:+ pkgName p +:+ nl
            +:+ nl +:+ "import (" +:+ nl
            +:+ concat_strings (entry_line <$> L)
            +:+ ")" +:+ nl)
  ∧ (∀ ord', ord' ≡ₚ map_to_list (imports p) → top_of p ord' = top_of p ord).
Proof.
  intros Hperm Hne Hone.
  assert (NoDup ord.*2) as Hnd
    by (rewrite Hperm; by apply one_key_per_path_NoDup).
  assert (0 < size (imports p))%nat as Hsize.
  { destruct (decide (size (imports p) = 0%nat)) as [Hz|]; [|lia].
    by apply map_size_empty_iff in Hz. }
  split.
  - set (g := λ v, (default "" (range_pathToQual ord !! v), v)).
    assert (g <$> ord.*2 = ord) as Hg.
    { rewrite <- list_fmap_compose. rewrite <- (list_fmap_id ord) at 2.
      apply list_fmap_ext. intros i [k v] Hi. unfold g. cbn.
      rewrite (range_pathToQual_lookup ord k v); [done..|].
      by eapply list_elem_of_lookup_2. }
    exists (g <$> sort_Strings (range_paths ord)). split_and!.
    + unfold sort_Strings, range_paths.
      by rewrite merge_sort_Permutation, Hg.
    + apply (Sorted_fmap g String.le path_le); [done|].
      apply Sorted_merge_sort; apply _.
    + unfold top_of. rewrite decide_True by done.
      unfold import_block. by rewrite <- list_fmap_compose.
  - intros ord' Hperm'. unfold top_of, import_block, range_paths.
    assert (ord ≡ₚ ord') as Hoo by (by rewrite Hperm, Hperm').
    rewrite <- (range_pathToQual_perm ord ord') by done.
    by rewrite (sort_Strings_perm ord.*2 ord'.*2) by (by rewrite Hoo).
Qed.

(** * The claims on concrete runs *)

Section Examples.
Local Existing Instance example_lib.

(** One path under two preferred names gets two identifiers: the second
    reference to [fmt], declared under [f], is resolved to [f] after the
    first was resolved to [fmt]. *)
Lemma two_names_two_identifiers :
  declared (state_before alias_ops (init "main") 2) 0 "fmt" "fmt"
  ∧ declared (state_before alias_ops (init "main") 3) 1 "f" "fmt"
  ∧ outcome_at alias_ops (init "main") 2 = Some (Return (VString "fmt"))
  ∧ outcome_at alias_ops (init "main") 3 = Some (Return (VString "f")).
Proof.
  split_and!; [| |done..].
  - by exists (mk_Import "fmt" "fmt").
  - by exists (mk_Import "f" "fmt").
Qed.

Lemma same_name_same_path_same_identifier_witness :
  (3 < 5)%nat
  ∧ declared (state_before collision_ops (init "main") 3) 1 "fmt" "example.com/pkg/fmt"
  ∧ declared (state_before collision_ops (init "main") 5) 2 "fmt" "example.com/pkg/fmt"
  ∧ outcome_at collision_ops (init "main") 3 = Some (Return (VString "example_com_pkg_fmt"))
  ∧ outcome_at collision_ops (init "main") 5 = Some (Return (VString "example_com_pkg_fmt")).
Proof.
  assert (declared (state_before collision_ops (init "main") 3) 1 "fmt"
            "example.com/pkg/fmt") as H1
    by (by exists (mk_Import "fmt" "example.com/pkg/fmt")).
  assert (declared (state_before collision_ops (init "main") 5) 2 "fmt"
            "example.com/pkg/fmt") as H2
    by (by exists (mk_Import "fmt" "example.com/pkg/fmt")).
  split_and!; [lia | done | done | done |].
  apply (same_name_same_path_same_identifier (init "main") collision_ops 3 5 1 2
           "fmt" "example.com/pkg/fmt"); [lia | done..].
Defined.

Lemma registry_keys_never_remapped_witness :
  imports (pr (state_before collision_ops (init "main") 3)) !! "fmt" = Some "fmt"
  ∧ imports (pr (state_before collision_ops (init "main") 11)) !! "fmt" = Some "fmt".
Proof.
  split; [done|].
  destruct (registry_keys_never_remapped (init "main") collision_ops) as [Hkeep _].
  apply (Hkeep 3%nat 11%nat); [lia | done].
Defined.

(** Under the empty preferred name the first of two references gets the
    empty identifier. *)
Lemma empty_name_empty_identifier :
  declared (state_before empty_name_ops (init "main") 2) 0 "" "a"
  ∧ declared (state_before empty_name_ops (init "main") 3) 1 "" "b"
  ∧ unvendor "a" ≠ unvendor "b"
  ∧ outcome_at empty_name_ops (init "main") 2 = Some (Return (VString ""))
  ∧ outcome_at empty_name_ops (init "main") 3 = Some (Return (VString "b")).
Proof.
  split_and!; [| |done..].
  - by exists (mk_Import "" "a").
  - by exists (mk_Import "" "b").
Qed.

Lemma name_collision_falls_back_to_fullpath_witness :
  (2 < 3)%nat
  ∧ declared (state_before collision_ops (init "main") 2) 0 "fmt" "fmt"
  ∧ declared (state_before collision_ops (init "main") 3) 1 "fmt" "example.com/pkg/fmt"
  ∧ unvendor "fmt" ≠ unvendor "example.com/pkg/fmt"
  ∧ imports (pr (state_before collision_ops (init "main") 2)) !! "fmt" = None
  ∧ outcome_at collision_ops (init "main") 3 = Some (Return (VString "example_com_pkg_fmt"))
  ∧ outcome_at collision_ops (init "main") 2 = Some (Return (VString "fmt"))
  ∧ "example_com_pkg_fmt" = makeFullpath (unvendor "example.com/pkg/fmt")
  ∧ "fmt" ≠ "example_com_pkg_fmt"
  ∧ ("example_com_pkg_fmt" = "" ↔ unvendor "example.com/pkg/fmt" = "").
Proof.
  assert (declared (state_before collision_ops (init "main") 2) 0 "fmt" "fmt") as H1
    by (by exists (mk_Import "fmt" "fmt")).
  assert (declared (state_before collision_ops (init "main") 3) 1 "fmt"
            "example.com/pkg/fmt") as H2
    by (by exists (mk_Import "fmt" "example.com/pkg/fmt")).
  assert (2 < 3)%nat as Hlt by lia.
  assert (unvendor "fmt" ≠ unvendor "example.com/pkg/fmt") as Hne by done.
  destruct (name_collision_falls_back_to_fullpath (init "main") collision_ops
              2 3 0 1 "fmt" "fmt" "example.com/pkg/fmt" "example_com_pkg_fmt"
              Hlt eq_refl H1 eq_refl H2 Hne eq_refl eq_refl)
    as (Hfirst & Hkey & Hdiff & Hempty).
  by split_and!.
Defined.

(** The registry before the third call of [conflict_ops]: [x] and [b_c]
    are taken, and [b/c] has the key [b_c] of [b.c]; the call panics. *)
Lemma resolve_panics_iff_fullpath_conflict_witness :
  fullpath_conflict (mk_Import "x" "b/c") (pr (state_before conflict_ops (init "main") 5))
  ∧ panics (Import_call (mk_Import "x" "b/c")
              (pr (state_before conflict_ops (init "main") 5))).1.1
  ∧ outcome_at conflict_ops (init "main") 5
    = Some (Panic "non unique fullpath: b.c != b/c").
Proof.
  assert (fullpath_conflict (mk_Import "x" "b/c")
            (pr (state_before conflict_ops (init "main") 5))) as Hc
    by (by exists "a", "b.c").
  split_and!; [done | | done].
  by apply (resolve_panics_iff_fullpath_conflict (mk_Import "x" "b/c")
              (pr (state_before conflict_ops (init "main") 5))).
Defined.

Lemma vendored_paths_resolve_alike_witness :
  strip_prefix "github.com/a/b/vendor/github.com/c/d" "github.com/c/d"
  ∧ strip_prefix "github.com/c/d" "github.com/c/d"
  ∧ unvendor "github.com/a/b/vendor/github.com/c/d" = unvendor "github.com/c/d"
  ∧ outcome_at vendored_ops (init "main") 3 = Some (Return (VString "d")).
Proof.
  assert (strip_prefix "github.com/a/b/vendor/github.com/c/d" "github.com/c/d") as H1
    by (right; by exists "github.com/a/b").
  assert (strip_prefix "github.com/c/d" "github.com/c/d") as H2 by (by left).
  destruct (vendored_paths_resolve_alike _ _ _ "d" H1 H2) as (Heq & _ & Hrun).
  split_and!; [done | done | done |].
  apply (Hrun (init "main") vendored_ops 2%nat 3%nat 0%nat 1%nat); [lia | done | | done | | done].
  - by exists (mk_Import "d" "github.com/a/b/vendor/github.com/c/d").
  - by exists (mk_Import "d" "github.com/c/d").
Defined.

Lemma resolve_idempotent_witness :
  (3 < 6)%nat
  ∧ outcome_at collision_ops (init "main") 3 = Some (Return (VString "example_com_pkg_fmt"))
  ∧ outcome_at collision_ops (init "main") 6 = Some (Return (VString "example_com_pkg_fmt")).
Proof.
  split_and!; [lia | done |].
  apply (resolve_idempotent (init "main") collision_ops 3 6 1); [lia | done..].
Defined.

Lemma Out_panics_iff_depth_zero_witness :
  indent (pr (state_before collision_ops (init "main") 10)) = tabs 1
  ∧ indent (printer_Out (pr (state_before collision_ops (init "main") 10))).2 = tabs 0
  ∧ outcome_at (collision_ops ++ [OpOut]) (init "main") 11
    = Some (Panic "bug in code generator: unindenting more than has been indented").
Proof.
  split_and!; [done | | done].
  destruct (Out_panics_iff_depth_zero (pr (state_before collision_ops (init "main") 10)))
    as (_ & _ & _ & Hd & _).
  by apply (Hd 1%nat).
Defined.

End Examples.

Section SerialiseExamples.
Local Existing Instance example_lib.

(** C5. [WriteTo] at the registry of [alias_ops], where the path [fmt]
    is registered under the keys [fmt] and [f] (the two closures returned
    [fmt] and [f]).  The claim asks for one line for each reference, the
    path alone for the key [fmt] and the key before the path for [f].
    [pathToQual] keeps one key for the path, the one visited last, and the
    path is listed once for every entry: visited as [fmt], [f] the block
    names [fmt] twice under [f], visited as [f], [fmt] twice bare.  One of
    the two names in use gets no import line, and the text depends on the
    order of the visit. *)
Lemma shared_path_repeats_one_key :
  imports (pr (run alias_ops (init "main")).2) !! "fmt" = Some "fmt"
  ∧ imports (pr (run alias_ops (init "main")).2) !! "f" = Some "fmt"
  ∧ [("fmt", "fmt"); ("f", "fmt")]
      ≡ₚ map_to_list (imports (pr (run alias_ops (init "main")).2))
  ∧ import_block [("fmt", "fmt"); ("f", "fmt")]
    = nl +:+ "import (" +:+ nl
      +:+ tab +:+ "f " +:+ dquote +:+ "fmt" +:+ dquote +:+ nl
      +:+ tab +:+ "f " +:+ dquote +:+ "fmt" +:+ dquote +:+ nl
      +:+ ")" +:+ nl
  ∧ import_block [("f", "fmt"); ("fmt", "fmt")]
    = nl +:+ "import (" +:+ nl
      +:+ tab +:+ dquote +:+ "fmt" +:+ dquote +:+ nl
      +:+ tab +:+ dquote +:+ "fmt" +:+ dquote +:+ nl
      +:+ ")" +:+ nl.
Proof. by split_and!. Qed.

Lemma import_block_sorted_by_path_witness :
  [("fmt", "fmt"); ("example_com_pkg_fmt", "example.com/pkg/fmt")]
    ≡ₚ map_to_list (imports (pr (run collision_ops (init "main")).2))
  ∧ imports (pr (run collision_ops (init "main")).2) ≠ ∅
  ∧ one_key_per_path (imports (pr (run collision_ops (init "main")).2))
  ∧ (∃ L, L ≡ₚ map_to_list (imports (pr (run collision_ops (init "main")).2))
          ∧ Sorted path_le L
          ∧ top_of (pr (run collision_ops (init "main")).2)
              [("fmt", "fmt"); ("example_com_pkg_fmt", "example.com/pkg/fmt")]
            = "// Code generated by goderive DO NOT EDIT." +:+ nl
              +:+ nl
              +:+ "package " +:+ "main" +:+ nl
              +:+ nl +:+ "import (" +:+ nl
              +:+ concat_strings (entry_line <$> L)
              +:+ ")" +:+ nl)
  ∧ top_of (pr (run collision_ops (init "main")).2)
      [("example_com_pkg_fmt", "example.com/pkg/fmt"); ("fmt", "fmt")]
    = "// Code generated by goderive DO NOT EDIT." +:+ nl
      +:+ nl
      +:+ "package main" +:+ nl
      +:+ nl +:+ "import (" +:+ nl
      +:+ tab +:+ "example_com_pkg_fmt " +:+ dquote +:+ "example.com/pkg/fmt" +:+ dquote +:+ nl
      +:+ tab +:+ dquote +:+ "fmt" +:+ dquote +:+ nl
      +:+ ")" +:+ nl.
Proof.
  assert ([("fmt", "fmt"); ("example_com_pkg_fmt", "example.com/pkg/fmt")]
            ≡ₚ map_to_list (imports (pr (run collision_ops (init "main")).2))) as Hperm
    by (vm_compute; apply perm_swap).
  assert (imports (pr (run collision_ops (init "main")).2) ≠ ∅) as Hne.
  { intros Hempty.
    assert (imports (pr (run collision_ops (init "main")).2) !! "fmt" = Some "fmt")
      as Hfmt by done.
    by rewrite Hempty in Hfmt. }
  assert (one_key_per_path (imports (pr (run collision_ops (init "main")).2))) as Hone.
  { intros k1 k2 v Hk1%elem_of_map_to_list Hk2%elem_of_map_to_list.
    rewrite <- Hperm in Hk1, Hk2.
    apply elem_of_cons in Hk1 as [?|Hk1%list_elem_of_singleton];
      apply elem_of_cons in Hk2 as [?|Hk2%list_elem_of_singleton];
      by simplify_eq. }
  destruct (import_block_sorted_by_path (pr (run collision_ops (init "main")).2)
              _ Hperm Hne Hone) as [Hblock Hany].
  split_and!; [done | done | done | done |].
  rewrite (Hany [("example_com_pkg_fmt", "example.com/pkg/fmt"); ("fmt", "fmt")]);
    [done | done].
Defined.

(** a sink with room for ten bytes: the header is cut short, the content
    stays in the printer *)
Lemma WriteTo_count_and_first_error_witness :
  io_Write (mk_sink "" 10)
      (top_of (pr (run collision_ops (init "main")).2)
         [("fmt", "fmt"); ("example_com_pkg_fmt", "example.com/pkg/fmt")])
    = (mk_sink "// Code ge" 0, 10%nat, Some (SinkError "sink is full"))
  ∧ 10 ≤ len (top_of (pr (run collision_ops (init "main")).2)
                [("fmt", "fmt"); ("example_com_pkg_fmt", "example.com/pkg/fmt")])
  ∧ printer_WriteTo (pr (run collision_ops (init "main")).2)
      [("fmt", "fmt"); ("example_com_pkg_fmt", "example.com/pkg/fmt")]
      (mk_sink "" 10)
    = (Return (10, Some (SinkError "sink is full")),
       pr (run collision_ops (init "main")).2, mk_sink "// Code ge" 0)
  ∧ w (pr (run collision_ops (init "main")).2) = tab +:+ "x := fmt.Sprint(1)" +:+ nl.
Proof.
  assert (10 ≤ len (top_of (pr (run collision_ops (init "main")).2)
                [("fmt", "fmt"); ("example_com_pkg_fmt", "example.com/pkg/fmt")]))
    as Hlen by (by vm_compute).
  destruct (@WriteTo_count_and_first_error example_lib (pr (run collision_ops (init "main")).2)
              [("fmt", "fmt"); ("example_com_pkg_fmt", "example.com/pkg/fmt")]
              (mk_sink "" 10) (mk_sink "// Code ge" 0) 10%nat
              (Some (SinkError "sink is full")) eq_refl Hlen) as (Hfail & _ & _).
  split_and!; [done | done | | done].
  by apply (Hfail (SinkError "sink is full")).
Defined.

(** a sink with room: the first [WriteTo] takes the content along, the
    second writes the header block alone *)
Lemma WriteTo_consumes_content_witness :
  printer_WriteTo (pr (run collision_ops (init "main")).2)
      [("fmt", "fmt"); ("example_com_pkg_fmt", "example.com/pkg/fmt")]
      (mk_sink "" 1000)
    = (Return (139, None), set_w "" (pr (run collision_ops (init "main")).2),
       mk_sink
         (top_of (pr (run collision_ops (init "main")).2)
            [("fmt", "fmt"); ("example_com_pkg_fmt", "example.com/pkg/fmt")]
          +:+ tab +:+ "x := fmt.Sprint(1)" +:+ nl) 861)
  ∧ w (set_w "" (pr (run collision_ops (init "main")).2)) = ""
  ∧ (printer_WriteTo (set_w "" (pr (run collision_ops (init "main")).2))
       [("fmt", "fmt"); ("example_com_pkg_fmt", "example.com/pkg/fmt")]
       (mk_sink "" 500)).2
    = mk_sink
        (top_of (pr (run collision_ops (init "main")).2)
           [("fmt", "fmt"); ("example_com_pkg_fmt", "example.com/pkg/fmt")]) 381.
Proof.
  assert (printer_WriteTo (pr (run collision_ops (init "main")).2)
      [("fmt", "fmt"); ("example_com_pkg_fmt", "example.com/pkg/fmt")]
      (mk_sink "" 1000)
    = (Return (139, None), set_w "" (pr (run collision_ops (init "main")).2),
       mk_sink
         (top_of (pr (run collision_ops (init "main")).2)
            [("fmt", "fmt"); ("example_com_pkg_fmt", "example.com/pkg/fmt")]
          +:+ tab +:+ "x := fmt.Sprint(1)" +:+ nl) 861)) as Hfirst
    by (by vm_compute).
  destruct (@WriteTo_consumes_content example_lib _ _ _ _ _ _ Hfirst) as (Hw & _ & _ & Hsecond).
  split_and!; [done | done |].
  assert (Z.of_nat 119 ≤ len (top_of (pr (run collision_ops (init "main")).2)
            [("fmt", "fmt"); ("example_com_pkg_fmt", "example.com/pkg/fmt")]))
    as Hlen by (by vm_compute).
  by destruct (Hsecond [("fmt", "fmt"); ("example_com_pkg_fmt", "example.com/pkg/fmt")]
                 (mk_sink "" 500) _ 119%nat None eq_refl Hlen) as [-> _].
Defined.

End SerialiseExamples.

(** * Further properties *)

(** ** Strings *)

Lemma string_take_drop n s : string_take n s +:+ string_drop n s = s.
Proof.
  revert s. induction n as [|n IH]; intros [|c t]; try done.
  cbn [string_take string_drop].
  change (String c (string_take n t +:+ string_drop n t) = String c t).
  by rewrite IH.
Qed.

Lemma string_take_length n s :
  String.length (string_take n s) = (n `min` String.length s)%nat.
Proof.
  revert s. induction n as [|n IH]; intros [|c t]; cbn; try done.
  by rewrite IH.
Qed.

Lemma string_app_assoc s t u : (s +:+ t) +:+ u = s +:+ (t +:+ u).
Proof.
  induction s as [|c s IH]; [done|].
  change (String c ((s +:+ t) +:+ u) = String c (s +:+ t +:+ u)). by rewrite IH.
Qed.

Lemma string_app_nil_r s : s +:+ "" = s.
Proof.
  induction s as [|c s IH]; [done|].
  change (String c (s +:+ "") = String c s). by rewrite IH.
Qed.

Lemma string_drop_app_ge pre s k :
  string_drop (String.length pre + k) (pre +:+ s) = string_drop k s.
Proof. by rewrite <- string_drop_drop, string_drop_app. Qed.

Lemma string_drop_beyond n s :
  (String.length s ≤ n)%nat → string_drop n s = "".
Proof.
  revert s. induction n as [|n IH]; intros [|c t] Hn; cbn in *; try done; try lia.
  apply IH. lia.
Qed.

(** [sep] is in front of [s] exactly when [s] is [sep] and a rest. *)
Lemma prefix_split sep s :
  String.prefix sep s = true → s = sep +:+ string_drop (String.length sep) s.
Proof.
  revert s. induction sep as [|a sep IH]; intros [|b s]; cbn; try done.
  destruct (ascii_dec a b) as [->|]; [|done]. intros Hp.
  change (String b s = String b (sep +:+ string_drop (String.length sep) s)).
  by rewrite <- IH.
Qed.

Lemma prefix_app sep s : String.prefix sep (sep +:+ s) = true.
Proof.
  induction sep as [|a sep IH]; [by destruct s|].
  change (String.prefix (String a sep) (String a (sep +:+ s)) = true).
  cbn [String.prefix]. by destruct (ascii_dec a a).
Qed.

Lemma occurs_beyond sep s k :
  sep ≠ "" → (String.length s < k)%nat → ¬ occurs sep s k.
Proof.
  intros Hsep Hk. unfold occurs. rewrite string_drop_beyond by lia.
  by destruct sep.
Qed.

Lemma occurs_app sep pre s k :
  occurs sep (pre +:+ s) (String.length pre + k) ↔ occurs sep s k.
Proof. unfold occurs. by rewrite string_drop_app_ge. Qed.

Section UnvendorExtras.
Context `{GoLib}.

Lemma unvendor_free_of_marker raw k : ¬ occurs vendor_marker (unvendor raw) k.
Proof.
  destruct (decide (k ≤ String.length (unvendor raw))%nat) as [Hk|Hk];
    [|apply occurs_beyond; [done | lia]].
  destruct (unvendor_cases raw) as [[Hu Hno] | (k0 & Hk0 & Hu & Hocc & Hlast)];
    rewrite Hu in Hk |- *; [by apply Hno|].
  rewrite string_drop_length in Hk.
  unfold occurs. rewrite string_drop_drop.
  apply (Hlast (k0 + 8 + k)%nat). lia.
Qed.

(** X1. [unvendor] keeps the end of the path: what it returns is the path
    itself or what follows a marker in it, holds no marker, and is left
    alone by a second [unvendor]. *)
Theorem unvendor_keeps_end_after_last_marker raw :
  (unvendor raw = raw
   ∨ ∃ pre, raw = pre +:+ vendor_marker +:+ unvendor raw)
  ∧ (∀ k, ¬ occurs vendor_marker (unvendor raw) k)
  ∧ (unvendor raw = raw ↔ ∀ k, ¬ occurs vendor_marker raw k)
  ∧ unvendor (unvendor raw) = unvendor raw.
Proof.
  split_and!.
  - destruct (unvendor_cases raw) as [[Hu Hno] | (k & Hk & Hu & Hocc & Hlast)];
      [by left|].
    right. exists (string_take k raw). rewrite Hu.
    rewrite <- (string_take_drop k raw) at 1. f_equal.
    rewrite (prefix_split _ _ Hocc) at 1. f_equal.
    by rewrite string_drop_drop.
  - apply unvendor_free_of_marker.
  - split.
    + intros Hu k. rewrite <- Hu. apply unvendor_free_of_marker.
    + intros Hno. apply unvendor_no_marker. auto.
  - apply unvendor_idemp.
Qed.

(** X2. What stands before a marker does not count: a path with a marker
    in it normalises as the path from that marker on. *)
Theorem unvendor_drops_what_precedes_a_marker pre rest :
  unvendor (pre +:+ vendor_marker +:+ rest) = unvendor (vendor_marker +:+ rest).
Proof.
  set (s := vendor_marker +:+ rest).
  assert (occurs vendor_marker s 0) as Hs0 by apply prefix_app.
  assert (occurs vendor_marker (pre +:+ s) (String.length pre)) as Hp0.
  { rewrite <- (Nat.add_0_r (String.length pre)). by apply occurs_app. }
  destruct (unvendor_cases s) as [[_ Hno] | (ks & Hks & Hus & Hoccs & Hlasts)].
  { exfalso. apply (Hno 0%nat); [lia | done]. }
  destruct (unvendor_cases (pre +:+ s))
    as [[_ Hno] | (kt & Hkt & Hut & Hocct & Hlastt)].
  { exfalso. apply (Hno (String.length pre)); [|done].
    rewrite string_app_length. lia. }
  rewrite string_app_length in Hkt, Hlastt.
  assert (String.length pre ≤ kt)%nat as Hge.
  { destruct (decide (String.length pre ≤ kt)%nat); [done|]. exfalso.
    apply (Hlastt (String.length pre)); [lia | done]. }
  assert (kt = String.length pre + ks)%nat as ->.
  { replace kt with (String.length pre + (kt - String.length pre))%nat in Hocct by lia.
    apply occurs_app in Hocct.
    destruct (decide (kt - String.length pre < ks)%nat) as [Hlt|Hnlt].
    - exfalso. apply (Hlastt (String.length pre + ks)%nat); [lia|].
      by apply occurs_app.
    - destruct (decide (ks < kt - String.length pre)%nat) as [Hgt|]; [|lia].
      exfalso. apply (Hlasts (kt - String.length pre)%nat); [lia | done]. }
  rewrite Hut, Hus.
  replace (String.length pre + ks + 8)%nat with (String.length pre + (ks + 8))%nat by lia.
  apply string_drop_app_ge.
Qed.

End UnvendorExtras.

(** ** Keys of ASCII paths *)

Lemma byte_of_byte_val c : byte_of (byte_val c) = c.
Proof.
  unfold byte_of, byte_val.
  pose proof (N_ascii_bounded c) as Hb.
  rewrite Z.mod_small by lia. rewrite N2Z.id. apply ascii_N_embedding.
Qed.

Lemma utf8_DecodeRuneInString_ascii c t :
  byte_val c < 0x80 → utf8_DecodeRuneInString (String c t) = (byte_val c, 1%nat).
Proof.
  intros Hc. unfold utf8_DecodeRuneInString, utf8_first.
  by rewrite (proj2 (Z.ltb_lt _ _) Hc).
Qed.

Lemma utf8_EncodeRune_ascii r :
  0 ≤ r < 0x80 → utf8_EncodeRune r = String (byte_of r) "".
Proof.
  intros Hr. unfold utf8_EncodeRune.
  rewrite (proj2 (Z.leb_le 0 r)) by lia.
  by rewrite (proj2 (Z.leb_le r 0x7F)) by lia.
Qed.

Lemma runes_ascii c t :
  byte_val c < 0x80 → runes (String c t) = byte_val c :: runes t.
Proof.
  intros Hc. unfold runes. cbn [String.length runes_fuel].
  by rewrite utf8_DecodeRuneInString_ascii.
Qed.

(** On an ASCII string [strings.Map] works byte by byte, when the mapping
    keeps ASCII in ASCII. *)
Lemma strings_Map_ascii mapping s :
  (∀ r, 0 ≤ r < 0x80 → 0 ≤ mapping r < 0x80) →
  ascii_only s = true →
  strings_Map mapping s = string_map (λ c, byte_of (mapping (byte_val c))) s.
Proof.
  intros Hmap. induction s as [|c t IH]; [done|].
  cbn [ascii_only]. intros [Hc Ht]%andb_true_iff. apply Z.ltb_lt in Hc.
  unfold strings_Map in *. rewrite runes_ascii by done. cbn [foldr string_map].
  pose proof (byte_val_nonneg c). pose proof (Hmap (byte_val c)).
  rewrite (proj2 (Z.ltb_ge _ _)) by lia.
  rewrite utf8_EncodeRune_ascii by lia. by rewrite IH.
Qed.

Section FullpathExtras.
Context `{GoLib}.

Lemma badToUnderscore_ascii r : 0 ≤ r < 0x80 → 0 ≤ badToUnderscore r < 0x80.
Proof. intros Hr. unfold badToUnderscore. case_match; lia. Qed.

Lemma badToUnderscore_byte c :
  byte_of (badToUnderscore (byte_val c)) = if kept c then c else "_"%char.
Proof.
  unfold badToUnderscore, kept.
  destruct (unicode_IsLetter (byte_val c) || unicode_IsDigit (byte_val c)
            || (byte_val c =? 95)); [apply byte_of_byte_val | done].
Qed.

Lemma kept_underscore : kept "_" = true.
Proof. unfold kept. apply orb_true_r. Qed.

Lemma makeFullpath_ascii_bytes s :
  ascii_only s = true →
  makeFullpath s = string_map (λ c, if kept c then c else "_"%char) s.
Proof.
  intros Hs. unfold makeFullpath.
  rewrite strings_Map_ascii by (done || apply badToUnderscore_ascii).
  induction s as [|c t IH]; [done|]. cbn [string_map].
  cbn [ascii_only] in Hs. apply andb_true_iff in Hs as [_ Ht].
  by rewrite badToUnderscore_byte, IH.
Qed.

(** X3. The full-path key of an ASCII path is the path byte for byte, with
    an underscore for every byte that is no letter, digit or underscore;
    it is as long as the path. *)
Theorem makeFullpath_ascii s :
  ascii_only s = true →
  makeFullpath s = string_map (λ c, if kept c then c else "_"%char) s
  ∧ String.length (makeFullpath s) = String.length s.
Proof.
  intros Hs. rewrite makeFullpath_ascii_bytes by done. split; [done|].
  clear Hs. induction s as [|c t IH]; [done|]. cbn. by rewrite IH.
Qed.

(** X4. The key of an ASCII path is ASCII, holds letters, digits and
    underscores only, and is its own key. *)
Theorem makeFullpath_ascii_idempotent s :
  ascii_only s = true →
  ascii_only (makeFullpath s) = true
  ∧ string_forall kept (makeFullpath s) = true
  ∧ makeFullpath (makeFullpath s) = makeFullpath s.
Proof.
  intros Hs.
  assert (ascii_only (makeFullpath s) = true) as Hascii.
  { rewrite makeFullpath_ascii_bytes by done.
    induction s as [|c t IH]; [done|].
    cbn [ascii_only] in Hs. apply andb_true_iff in Hs as [Hc Ht].
    cbn [string_map ascii_only]. rewrite IH by done.
    destruct (kept c); [by rewrite Hc | done]. }
  split_and!; [done | |].
  - rewrite makeFullpath_ascii_bytes by done. clear.
    induction s as [|c t IH]; [done|]. cbn [string_map string_forall].
    rewrite IH. destruct (kept c) eqn:Hk; [by rewrite Hk|].
    by rewrite kept_underscore.
  - rewrite (makeFullpath_ascii_bytes (makeFullpath s)) by done.
    rewrite makeFullpath_ascii_bytes by done. clear.
    induction s as [|c t IH]; [done|]. cbn [string_map]. rewrite IH. f_equal.
    destruct (kept c) eqn:Hk; [by rewrite Hk|]. by rewrite kept_underscore.
Qed.

End FullpathExtras.

(** ** Splitting *)

Lemma index_from_spec sep s i :
  (index_from sep s i = -1
   ∧ ∀ k, (k ≤ String.length s)%nat → ¬ occurs sep s k)
  ∨ (∃ k, (k ≤ String.length s)%nat
        ∧ index_from sep s i = i + Z.of_nat k
        ∧ occurs sep s k
        ∧ ∀ k', (k' < k)%nat → ¬ occurs sep s k').
Proof.
  revert i. induction s as [|c t IH]; intros i; cbn [index_from].
  - destruct (String.prefix sep "") eqn:Hp.
    + right. exists 0%nat. split_and!; [done | lia | done | intros; lia].
    + left. split; [done|]. intros k Hk. cbn in Hk.
      replace k with 0%nat by lia. unfold occurs. cbn [string_drop]. by rewrite Hp.
  - destruct (String.prefix sep (String c t)) eqn:Hp.
    + right. exists 0%nat. split_and!; [lia | lia | done | intros; lia].
    + destruct (IH (i + 1)) as [[Hr Hno] | (k & Hk & Hr & Hocc & Hfirst)].
      * left. split; [done|]. intros [|k] Hk; unfold occurs; cbn [string_drop].
        -- by rewrite Hp.
        -- apply Hno. cbn in Hk. lia.
      * right. exists (S k). split_and!; [cbn; lia | lia | done |].
        intros [|k'] Hk'; unfold occurs; cbn [string_drop].
        -- by rewrite Hp.
        -- apply Hfirst. lia.
Qed.

(** [strings.Index] finds the first place where [sep] stands, or answers
    -1 when there is none. *)
Lemma strings_Index_spec s sep :
  (strings_Index s sep = -1
   ∧ ∀ k, (k ≤ String.length s)%nat → ¬ occurs sep s k)
  ∨ (∃ k, (k ≤ String.length s)%nat
        ∧ strings_Index s sep = Z.of_nat k
        ∧ occurs sep s k
        ∧ ∀ k', (k' < k)%nat → ¬ occurs sep s k').
Proof.
  unfold strings_Index.
  destruct (index_from_spec sep s 0) as [?|(k & ? & ? & ? & ?)]; [by left|].
  right. exists k. split_and!; [done | lia | done | done].
Qed.

Lemma occurs_cut sep s k :
  occurs sep s k → (k ≤ String.length s)%nat →
  s = string_take k s +:+ sep +:+ string_drop (k + String.length sep) s
  ∧ (k + String.length sep ≤ String.length s)%nat.
Proof.
  intros Hocc Hk. split.
  - rewrite <- (string_take_drop k s) at 1. f_equal.
    rewrite (prefix_split _ _ Hocc) at 1. by rewrite string_drop_drop.
  - apply prefix_length in Hocc. rewrite string_drop_length in Hocc. lia.
Qed.

Lemma count_loop_bounds fuel s sep : 0 ≤ count_loop fuel s sep ≤ Z.of_nat fuel.
Proof.
  revert s. induction fuel as [|fuel IH]; intros s; cbn [count_loop]; [lia|].
  case_decide; [lia|]. specialize (IH (string_drop (Z.to_nat (strings_Index s sep + len sep)) s)).
  lia.
Qed.

Lemma split_loop_nonempty n s sep : split_loop n s sep ≠ [].
Proof. destruct n; cbn [split_loop]; [done|]. by case_decide. Qed.

Lemma join_cons sep x l : l ≠ [] → join sep (x :: l) = x +:+ sep +:+ join sep l.
Proof. by destruct l. Qed.

(** The pieces of a split, with the separator between them, are the
    string. *)
Lemma join_split_loop n s sep : join sep (split_loop n s sep) = s.
Proof.
  revert s. induction n as [|n IH]; intros s; cbn [split_loop]; [done|].
  case_decide as Hm; [done|].
  destruct (strings_Index_spec s sep) as [[Hr _] | (k & Hk & Hr & Hocc & _)];
    [lia|].
  rewrite join_cons by apply split_loop_nonempty. rewrite IH, Hr.
  replace (Z.to_nat (Z.of_nat k)) with k by lia.
  replace (Z.to_nat (Z.of_nat k + len sep)) with (k + String.length sep)%nat
    by (unfold len; lia).
  symmetry. by apply occurs_cut.
Qed.

(** The last piece ends the string, behind a separator or alone. *)
Lemma split_loop_last n s sep :
  ∃ a pre, last (split_loop n s sep) = Some a
    ∧ s = pre +:+ a
    ∧ (pre = "" ∨ ∃ pre', pre = pre' +:+ sep).
Proof.
  revert s. induction n as [|n IH]; intros s; cbn [split_loop].
  { exists s, "". split_and!; [done | done | by left]. }
  case_decide as Hm.
  { exists s, "". split_and!; [done | done | by left]. }
  destruct (strings_Index_spec s sep) as [[Hr _] | (k & Hk & Hr & Hocc & _)];
    [lia|].
  rewrite Hr. replace (Z.to_nat (Z.of_nat k)) with k by lia.
  replace (Z.to_nat (Z.of_nat k + len sep)) with (k + String.length sep)%nat
    by (unfold len; lia).
  destruct (IH (string_drop (k + String.length sep) s))
    as (a & pre & Hlast & Hs & Hpre).
  exists a, (string_take k s +:+ sep +:+ pre). split_and!.
  - rewrite last_cons, Hlast. done.
  - rewrite !string_app_assoc, <- Hs. by apply occurs_cut.
  - right. destruct Hpre as [->|[pre' ->]].
    + exists (string_take k s). by rewrite string_app_nil_r.
    + exists (string_take k s +:+ sep +:+ pre'). by rewrite !string_app_assoc.
Qed.

(** After as many cuts as [Count] counts, no separator is left in the last
    piece. *)
Lemma split_loop_count_last fuel s sep a :
  sep ≠ "" → (String.length s ≤ fuel)%nat →
  last (split_loop (Z.to_nat (count_loop fuel s sep)) s sep) = Some a →
  ∀ k, ¬ occurs sep a k.
Proof.
  intros Hsep. revert s a. induction fuel as [|fuel IH]; intros s a Hlen.
  - cbn. intros [= <-] k. destruct s; [|cbn in Hlen; lia].
    unfold occurs. rewrite string_drop_nil. by destruct sep.
  - cbn [count_loop].
    destruct (strings_Index_spec s sep) as [[Hr Hno] | (k0 & Hk0 & Hr & Hocc & _)].
    + rewrite decide_True by done. cbn. intros [= <-] k.
      destruct (decide (k ≤ String.length s)%nat); [by apply Hno|].
      apply occurs_beyond; [done | lia].
    + rewrite decide_False by lia.
      set (s' := string_drop (Z.to_nat (strings_Index s sep + len sep)) s).
      pose proof (count_loop_bounds fuel s' sep).
      assert (String.length s' ≤ fuel)%nat as Hlen'.
      { unfold s'. rewrite string_drop_length, Hr.
        assert (0 < String.length sep)%nat by (destruct sep; [done | cbn; lia]).
        unfold len. lia. }
      rewrite Z2Nat.inj_add by lia. change (Z.to_nat 1) with 1%nat.
      cbn [Nat.add split_loop]. rewrite decide_False by lia.
      rewrite last_cons. fold s'.
      destruct (split_loop_last (Z.to_nat (count_loop fuel s' sep)) s' sep)
        as (a' & pre & Hlast & _).
      rewrite Hlast. intros [= <-]. by apply (IH s' a').
Qed.

Lemma strings_Split_loop s sep0 sep' :
  strings_Split s sep0 sep'
  = split_loop (Z.to_nat (count_loop (String.length s) s (String sep0 sep')))
      s (String sep0 sep').
Proof.
  unfold strings_Split, strings_Count.
  pose proof (count_loop_bounds (String.length s) s (String sep0 sep')).
  rewrite decide_False by (unfold len; lia). f_equal. lia.
Qed.

Section AliasExtras.
Context `{GoLib}.

(** X5. [makeAlias] never panics: it returns the end of the full-path key
    behind its last underscore, or the whole key when there is none, and
    what it returns holds no underscore. *)
Theorem makeAlias_is_end_after_last_underscore raw :
  ∃ alias pre,
    makeAlias raw = Return alias
    ∧ makeFullpath raw = pre +:+ alias
    ∧ (pre = "" ∨ ∃ pre', pre = pre' +:+ "_")
    ∧ ∀ k, ¬ occurs "_" alias k.
Proof.
  unfold makeAlias. fold (makeFullpath raw). rewrite strings_Split_loop.
  destruct (split_loop_last
              (Z.to_nat (count_loop (String.length (makeFullpath raw))
                           (makeFullpath raw) "_"))
              (makeFullpath raw) "_") as (a & pre & Hlast & Hs & Hpre).
  exists a, pre. rewrite Hlast. split_and!; [done | done | done |].
  by apply (split_loop_count_last (String.length (makeFullpath raw))
              (makeFullpath raw) "_" a).
Qed.

End AliasExtras.

(** ** The registry, further *)

Section RegistryExtras.
Context `{GoLib}.

Lemma state_before_0 ops σ : state_before ops σ 0 = σ.
Proof. unfold state_before. by rewrite take_0. Qed.

Lemma state_before_cons o ops σ a :
  state_before (o :: ops) σ (S a) = state_before ops (exec o σ).2 a.
Proof. unfold state_before. cbn [take]. by rewrite run_cons. Qed.

Lemma outcome_at_cons o ops σ a :
  outcome_at (o :: ops) σ (S a) = outcome_at ops (exec o σ).2 a.
Proof. unfold outcome_at. by rewrite run_cons. Qed.

Lemma outcome_at_0 o ops σ : outcome_at (o :: ops) σ 0 = Some (exec o σ).1.
Proof. unfold outcome_at. by rewrite run_cons. Qed.

Lemma run_from ops σ a :
  (run ops σ).2 = (run (drop a ops) (state_before ops σ a)).2.
Proof.
  unfold state_before. rewrite <- run_app. by rewrite take_drop.
Qed.

(** What a call returns is the preferred name or the full-path key. *)
Lemma Import_call_new_key h p k v :
  imports (Import_call h p).2 !! k = Some v →
  imports p !! k = Some v
  ∨ ((Import_call h p).1.1 = Return k ∧ canonical h = v
     ∧ (k = name h ∨ k = makeFullpath v)).
Proof.
  destruct (Import_call_cases h p)
    as [Hn | [Hn | [(path1 & Hn & Hne & Hf) | (path1 & path2 & Hn & Hne & Hf & Hne2)]]].
  - rewrite Import_call_fresh by done. cbn.
    destruct (decide (k = name h)) as [->|Hk].
    + rewrite lookup_insert_eq. intros [= <-]. right. auto.
    + rewrite lookup_insert_ne by done. by left.
  - rewrite Import_call_reuse by done. by left.
  - rewrite (Import_call_fallback h p path1) by done. cbn.
    destruct (decide (k = makeFullpath (canonical h))) as [->|Hk].
    + rewrite lookup_insert_eq. intros [= <-]. right. auto.
    + rewrite lookup_insert_ne by done. by left.
  - rewrite (Import_call_conflict h p path1 path2) by done. by left.
Qed.

Lemma exec_new_key o σ k v :
  imports (pr (exec o σ).2) !! k = Some v →
  imports (pr σ) !! k = Some v
  ∨ ∃ i h, o = OpCall i ∧ closures σ !! i = Some h
           ∧ (exec o σ).1 = Return (VString k) ∧ canonical h = v
           ∧ (k = name h ∨ k = makeFullpath v).
Proof.
  destruct o as [n raw|j|format a| | | |ord file]; cbn [exec]; try by left.
  - destruct (closures σ !! j) as [hj|] eqn:Hj; [|by left].
    pose proof (Import_call_new_key hj (pr σ) k v) as Hnew.
    destruct (Import_call hj (pr σ)) as [[r h'] p']. cbn in *.
    intros Hk. destruct (Hnew Hk) as [?|(-> & Hc & Hkey)]; [by left|].
    right. exists j, hj. by split_and!.
  - pose proof (printer_Out_imports (pr σ)) as Hi.
    destruct (printer_Out (pr σ)) as [r p']. cbn in *. rewrite Hi. by left.
  - pose proof (printer_WriteTo_imports (pr σ) ord file) as Hi.
    destruct (printer_WriteTo (pr σ) ord file) as [[r p'] file']. cbn in *.
    rewrite Hi. by left.
Qed.

(** A key of the registry was there from the start or is the name a call
    returned. *)
Lemma run_new_key ops σ k v :
  imports (pr (run ops σ).2) !! k = Some v →
  imports (pr σ) !! k = Some v
  ∨ ∃ a i h, ops !! a = Some (OpCall i)
             ∧ closures (state_before ops σ a) !! i = Some h
             ∧ outcome_at ops σ a = Some (Return (VString k))
             ∧ canonical h = v
             ∧ (k = name h ∨ k = makeFullpath v).
Proof.
  revert σ. induction ops as [|o ops IH]; intros σ; [by left|].
  rewrite run_cons. cbn [snd]. intros Hk.
  destruct (IH _ Hk) as [Hk1|(a & i & h & Ha & Hi & Hx & Hc & Hkey)].
  - destruct (exec_new_key o σ k v Hk1) as [?|(i & h & -> & Hi & Hx & Hc & Hkey)];
      [by left|].
    right. exists 0%nat, i, h.
    rewrite state_before_0, outcome_at_0, Hx. by split_and!.
  - right. exists (S a), i, h.
    rewrite state_before_cons, outcome_at_cons. by split_and!.
Qed.

Lemma exec_pkgName o σ : pkgName (pr (exec o σ).2) = pkgName (pr σ).
Proof.
  destruct o as [n raw|j|format a| | | |ord file]; cbn [exec]; try done.
  - destruct (closures σ !! j) as [hj|]; [|done].
    unfold Import_call. by repeat case_match; simplify_eq/=.
  - unfold printer_Out. by case_decide.
  - unfold printer_WriteTo. by repeat case_match; simplify_eq/=.
Qed.

Lemma run_pkgName ops σ : pkgName (pr (run ops σ).2) = pkgName (pr σ).
Proof.
  revert σ. induction ops as [|o ops IH]; intros σ; [done|].
  rewrite run_cons. cbn [snd]. by rewrite IH, exec_pkgName.
Qed.

(** X6. Imports are registered by use only: in a run of a new printer
    every entry of the registry is the name some call of a closure
    returned, registered for the canonical path of that closure; the name
    is the preferred name of the closure or the full-path key of the
    path. *)
Theorem registry_entries_come_from_calls pkg ops k v :
  imports (pr (run ops (init pkg)).2) !! k = Some v →
  ∃ a i h, ops !! a = Some (OpCall i)
           ∧ closures (state_before ops (init pkg) a) !! i = Some h
           ∧ outcome_at ops (init pkg) a = Some (Return (VString k))
           ∧ canonical h = v
           ∧ (k = name h ∨ k = makeFullpath v).
Proof.
  intros Hk. by destruct (run_new_key ops (init pkg) k v Hk) as [Hinit|?].
Qed.

(** X7. A run of a new printer in which no closure is called, whatever
    it declares, leaves the registry empty, and the printer writes its
    header and package clause without an import block. *)
Theorem no_call_no_import_block pkg ops ord :
  (∀ a i, ops !! a ≠ Some (OpCall i)) →
  imports (pr (run ops (init pkg)).2) = ∅
  ∧ top_of (pr (run ops (init pkg)).2) ord
    = "// Code generated by goderive DO NOT EDIT." +:+ nl
      +:+ nl
      +:+ "package " +:+ pkg +:+ nl.
Proof.
  intros Hno.
  assert (imports (pr (run ops (init pkg)).2) = ∅) as Hempty.
  { apply map_empty. intros k.
    destruct (imports (pr (run ops (init pkg)).2) !! k) as [v|] eqn:Hk; [|done].
    destruct (run_new_key ops (init pkg) k v Hk) as [?|(a & i & h & Ha & _)];
      [done|]. by destruct (Hno a i). }
  split; [done|]. unfold top_of.
  rewrite Hempty, run_pkgName. cbn [init pr newPrinter pkgName].
  rewrite map_size_empty. rewrite decide_False by lia.
  by rewrite !string_app_nil_r.
Qed.

(** X8. A closure that has returned can be called again at once without
    any effect: the same name comes back and the printer and the closure
    stay as they are. *)
Theorem Import_call_again_changes_nothing h p x :
  (Import_call h p).1.1 = Return x →
  Import_call (Import_call h p).1.2 (Import_call h p).2
  = (Return x, (Import_call h p).1.2, (Import_call h p).2).
Proof.
  intros Hret. rewrite (Import_call_ext h) by apply Import_call_same_ref.
  destruct (Import_call_cases h p)
    as [Hn | [Hn | [(path1 & Hn & Hne & Hf) | (path1 & path2 & Hn & Hne & Hf & Hne2)]]].
  - pose proof (Import_call_fresh h p Hn) as Hr. rewrite Hr in Hret |- *.
    cbn in Hret |- *. injection Hret as <-.
    rewrite Import_call_reuse; [done|]. cbn. apply lookup_insert_eq.
  - pose proof (Import_call_reuse h p Hn) as Hr. rewrite Hr in Hret |- *.
    cbn in Hret |- *. injection Hret as <-. by rewrite Hr.
  - pose proof (Import_call_fallback h p path1 Hn Hne Hf) as Hr.
    rewrite Hr in Hret |- *. cbn in Hret |- *. injection Hret as <-.
    assert (makeFullpath (canonical h) ≠ name h) as Hfn.
    { intros Heq. rewrite Heq, Hn in Hf. destruct Hf; simplify_eq. }
    rewrite (Import_call_fallback h _ path1); cbn.
    + unfold set_imports. cbn. by rewrite insert_insert_eq.
    + by rewrite lookup_insert_ne.
    + done.
    + right. apply lookup_insert_eq.
  - by rewrite (Import_call_conflict h p path1 path2) in Hret.
Qed.

(** X9. A failure stays: when the call of a reference has panicked, every
    later call of a reference declared for the same path under the same
    preferred name panics with the same message. *)
Theorem resolve_panic_is_permanent σ ops a b i j n raw msg :
  (a < b)%nat →
  ops !! a = Some (OpCall i) → declared (state_before ops σ a) i n raw →
  ops !! b = Some (OpCall j) → declared (state_before ops σ b) j n raw →
  outcome_at ops σ a = Some (Panic msg) →
  outcome_at ops σ b = Some (Panic msg).
Proof.
  intros Hab Ha (hi & Hi & Hni & Hci) Hb (hj & Hj & Hnj & Hcj) Hx.
  rewrite (outcome_at_exec _ _ _ _ Ha), (exec_call_closure _ _ _ Hi) in Hx.
  rewrite (outcome_at_exec _ _ _ _ Hb), (exec_call_closure _ _ _ Hj). f_equal.
  injection Hx as Hx.
  assert (imports (pr (state_before ops σ a)) ⊆ imports (pr (state_before ops σ b)))
    as Hsub.
  { rewrite (state_before_le ops σ a b) by lia. apply run_mono. }
  destruct (Import_call_cases hi (pr (state_before ops σ a)))
    as [Hn | [Hn | [(path1 & Hn & Hne & Hf) | (path1 & path2 & Hn & Hne & Hf & Hne2)]]].
  - by rewrite Import_call_fresh in Hx.
  - by rewrite Import_call_reuse in Hx.
  - by rewrite (Import_call_fallback hi _ path1) in Hx.
  - rewrite (Import_call_conflict hi _ path1 path2) in Hx by done.
    cbn in Hx. injection Hx as <-.
    rewrite (Import_call_conflict hj _ path1 path2); cbn.
    + by rewrite Hcj, Hci.
    + rewrite Hnj, <- Hni. by eapply lookup_weaken.
    + by rewrite Hcj, <- Hci.
    + rewrite Hcj, <- Hci. by eapply lookup_weaken.
    + by rewrite Hcj, <- Hci.
Qed.

End RegistryExtras.

Section NamingExtras.
Context `{GoLib}.

Lemma consistent_names_earlier ops σ :
  consistent_names (closures (run ops σ).2) canonical →
  consistent_names (closures σ) canonical.
Proof.
  intros Hcons i j hi hj Hi Hj Hname.
  destruct (run_mono ops σ) as [_ Hcl].
  destruct (Hcl i hi Hi) as (hi' & Hi' & Hni & Hci).
  destruct (Hcl j hj Hj) as (hj' & Hj' & Hnj & Hcj).
  rewrite <- Hci, <- Hcj. apply (Hcons i j hi' hj' Hi' Hj'). congruence.
Qed.

Lemma entries_of_closures_weaken σ p' cl' :
  entries_of_closures σ →
  imports p' = imports (pr σ) →
  (∀ i h, closures σ !! i = Some h → ∃ h', cl' !! i = Some h' ∧ same_ref h h') →
  entries_of_closures (mk_state p' cl').
Proof.
  intros Hent Himp Hcl k v Hk. cbn in Hk. rewrite Himp in Hk.
  destruct (Hent k v Hk) as (i & h & Hi & Hn & Hc).
  destruct (Hcl i h Hi) as (h' & Hi' & Hn' & Hc').
  exists i, h'. cbn. split_and!; [done | congruence | congruence].
Qed.

Lemma exec_consistent o σ :
  entries_of_closures σ → consistent_names (closures σ) canonical →
  entries_of_closures (exec o σ).2
  ∧ ∀ i h, o = OpCall i → closures σ !! i = Some h →
      (exec o σ).1 = Return (VString (name h)).
Proof.
  intros Hent Hcons.
  destruct (exec_mono o σ) as [_ Hcl].
  destruct o as [n raw|j|format a| | | |ord file]; cbn [exec] in *;
    try (split; [|done]).
  - eapply entries_of_closures_weaken; [done | done | done].
  - destruct (closures σ !! j) as [hj|] eqn:Hj; [|split; [done|]; intros i h [= <-] Hi'; congruence].
    assert ((Import_call hj (pr σ)).1.1 = Return (name hj)
            ∧ imports (Import_call hj (pr σ)).2
              = <[name hj := canonical hj]> (imports (pr σ))) as [Hret Himp].
    { destruct (imports (pr σ) !! name hj) as [v|] eqn:Hn.
      - destruct (Hent _ _ Hn) as (i & h & Hi & Hname & Hc).
        assert (v = canonical hj) as -> by (rewrite <- Hc; by eapply Hcons).
        rewrite Import_call_reuse by done. cbn. by rewrite insert_id.
      - by rewrite Import_call_fresh. }
    pose proof (Import_call_closure hj (pr σ)) as Hclo.
    destruct (Import_call hj (pr σ)) as [[r h'] p']. cbn in *. subst r h'.
    split; [|intros i h [= <-] Hi'; rewrite Hj in Hi'; by injection Hi' as <-].
    intros k v Hk. cbn in Hk. rewrite Himp in Hk.
    destruct (decide (k = name hj)) as [->|Hne].
    + rewrite lookup_insert_eq in Hk. injection Hk as <-.
      exists j, (mk_Import (name hj) (canonical hj)). cbn. split_and!; [|done|].
      * apply list_lookup_insert_eq. by eapply lookup_lt_Some.
      * unfold canonical. cbn. apply unvendor_idemp.
    + rewrite lookup_insert_ne in Hk by done.
      destruct (Hent k v Hk) as (i & h & Hi & Hn & Hc).
      destruct (Hcl i h Hi) as (h' & Hi' & Hn' & Hc').
      exists i, h'. split_and!; [done | congruence | congruence].
  - eapply entries_of_closures_weaken; [done | done | done].
  - eapply entries_of_closures_weaken; [done | done | done].
  - pose proof (printer_Out_imports (pr σ)) as Hi.
    destruct (printer_Out (pr σ)) as [r p']. cbn in *.
    eapply entries_of_closures_weaken; [done | done | done].
  - done.
  - pose proof (printer_WriteTo_imports (pr σ) ord file) as Hi.
    destruct (printer_WriteTo (pr σ) ord file) as [[r p'] file']. cbn in *.
    eapply entries_of_closures_weaken; [done | done | done].
Qed.

Lemma run_consistent ops σ a i h :
  entries_of_closures σ →
  consistent_names (closures (run ops σ).2) canonical →
  ops !! a = Some (OpCall i) →
  closures (state_before ops σ a) !! i = Some h →
  outcome_at ops σ a = Some (Return (VString (name h))).
Proof.
  revert σ a. induction ops as [|o ops IH]; intros σ a Hent Hcons Ha Hi; [done|].
  rewrite run_cons in Hcons. cbn [snd] in Hcons.
  pose proof (consistent_names_earlier _ _ Hcons) as Hcons1.
  assert (consistent_names (closures σ) canonical) as Hcons0.
  { apply (consistent_names_earlier [o]). by rewrite run_cons. }
  destruct (exec_consistent o σ Hent Hcons0) as [Hent1 Hcall].
  destruct a as [|a].
  - injection Ha as ->. rewrite state_before_0 in Hi.
    rewrite outcome_at_0. f_equal. by apply (Hcall i h).
  - rewrite state_before_cons in Hi. rewrite outcome_at_cons. by apply IH.
Qed.

(** X10. When the preferred name decides the path (no two closures of the
    run have one name and different canonical paths), every call in a run
    of a new printer returns the preferred name of its closure: there is
    no fallback and no panic. *)
Theorem consistent_names_get_preferred_names pkg ops a i h :
  consistent_names (closures (run ops (init pkg)).2) canonical →
  ops !! a = Some (OpCall i) →
  closures (state_before ops (init pkg) a) !! i = Some h →
  outcome_at ops (init pkg) a = Some (Return (VString (name h))).
Proof.
  intros Hcons Ha Hi. by apply (run_consistent ops (init pkg) a i h).
Qed.

End NamingExtras.

(** ** Content and indentation, further *)

Section ContentExtras.
Context `{GoLib}.

Lemma exec_hasContent o σ :
  hasContent (pr (exec o σ).2) = true
  ↔ hasContent (pr σ) = true ∨ ∃ format a, o = OpP format a.
Proof.
  assert (∀ p' : printer, hasContent p' = hasContent (pr σ) →
            (∀ format a, o ≠ OpP format a) →
            hasContent p' = true
            ↔ hasContent (pr σ) = true ∨ ∃ format a, o = OpP format a) as Hsame.
  { intros p' -> Hno. split; [by left|]. intros [?|(format & a & ->)]; [done|].
    by destruct (Hno format a). }
  destruct o as [n raw|j|format a| | | |ord file]; cbn [exec];
    try (by apply Hsame).
  - destruct (closures σ !! j) as [hj|]; [|by apply Hsame].
    apply Hsame; [|done].
    unfold Import_call. by repeat case_match; simplify_eq/=.
  - cbn. split; [|done]. intros _. right. eauto.
  - apply Hsame; [|done]. unfold printer_Out. by case_decide.
  - apply Hsame; [|done].
    unfold printer_WriteTo. by repeat case_match; simplify_eq/=.
Qed.

Lemma run_hasContent ops σ :
  hasContent (pr (run ops σ).2) = true
  ↔ hasContent (pr σ) = true ∨ ∃ a format args, ops !! a = Some (OpP format args).
Proof.
  revert σ. induction ops as [|o ops IH]; intros σ.
  { cbn. split; [by left|]. by intros [?|(a & ? & ? & ?)]. }
  rewrite run_cons. cbn [snd]. rewrite IH, exec_hasContent. split.
  - intros [[?|(format & args & ->)]|(a & format & args & Ha)]; [by left|..].
    + right. by exists 0%nat, format, args.
    + right. by exists (S a), format, args.
  - intros [?|([|a] & format & args & Ha)]; [by left; left|..].
    + left. right. cbn in Ha. injection Ha as ->. eauto.
    + right. exists a, format, args. done.
Qed.

(** X11. [HasContent] tells whether [P] has been called: in a run of a new
    printer it answers true exactly when some call of [P] came before it;
    nothing, [WriteTo] included, takes the answer back. *)
Theorem HasContent_iff_P_called_before pkg ops a :
  ops !! a = Some OpHasContent →
  ∃ b, outcome_at ops (init pkg) a = Some (Return (VBool b))
       ∧ (b = true ↔ ∃ a' format args,
            (a' < a)%nat ∧ ops !! a' = Some (OpP format args)).
Proof.
  intros Ha. exists (hasContent (pr (state_before ops (init pkg) a))).
  split; [by rewrite (outcome_at_exec _ _ _ _ Ha)|].
  unfold state_before. rewrite run_hasContent. cbn. split.
  - intros [?|(a' & format & args & Ha')]; [done|].
    apply lookup_take_Some in Ha' as [Ha' Hlt]. by exists a', format, args.
  - intros (a' & format & args & Hlt & Ha'). right. exists a', format, args.
    by rewrite lookup_take_lt.
Qed.

Lemma exec_depth o σ d :
  indent (pr σ) = tabs d →
  indent (pr (exec o σ).2) = tabs (depth_from d [o])
  ∧ (o = OpOut →
       (exec o σ).1
       = if decide (d = 0%nat)
         then Panic "bug in code generator: unindenting more than has been indented"
         else Return VUnit).
Proof.
  intros Hd.
  destruct o as [n raw|j|format a| | | |ord file]; cbn [exec depth_from];
    try (split; [done|done]).
  - split; [|done]. destruct (closures σ !! j) as [hj|]; [|done].
    unfold Import_call. by repeat case_match; simplify_eq/=.
  - split; [|done]. cbn. by rewrite Hd, tabs_snoc.
  - unfold printer_Out. pose proof (tabs_length d) as Hlen. rewrite <- Hd in Hlen.
    destruct d as [|d].
    + rewrite decide_False by lia. by rewrite decide_True.
    + rewrite decide_True by lia. rewrite decide_False by done. cbn.
      by rewrite Hd.
  - split; [|done]. unfold printer_WriteTo. by repeat case_match; simplify_eq/=.
Qed.

Lemma depth_from_cons d o ops :
  depth_from d (o :: ops) = depth_from (depth_from d [o]) ops.
Proof. by destruct o. Qed.

Lemma run_depth ops σ d :
  indent (pr σ) = tabs d →
  indent (pr (run ops σ).2) = tabs (depth_from d ops).
Proof.
  revert σ d. induction ops as [|o ops IH]; intros σ d Hd; [done|].
  rewrite run_cons, depth_from_cons. cbn [snd].
  apply IH. by apply exec_depth.
Qed.

(** X12. The indentation is a counter: in a run of a new printer it is as
    many indent units as [In] was called, less the calls of [Out] that
    found it above zero; a call of [Out] panics exactly when the counter
    is zero, and then leaves it at zero. *)
Theorem indentation_is_a_counter pkg ops :
  indent (pr (run ops (init pkg)).2) = tabs (depth_from 0 ops)
  ∧ ∀ a, ops !! a = Some OpOut →
      outcome_at ops (init pkg) a
      = Some (if decide (depth_from 0 (take a ops) = 0%nat)
              then Panic "bug in code generator: unindenting more than has been indented"
              else Return VUnit).
Proof.
  split; [by apply run_depth|].
  intros a Ha. rewrite (outcome_at_exec _ _ _ _ Ha). f_equal.
  apply exec_depth; [|done]. unfold state_before. by apply run_depth.
Qed.

Lemma content_from_cons d o ops :
  content_from d (o :: ops)
  = content_from d [o] +:+ content_from (depth_from d [o]) ops.
Proof.
  destruct o; cbn [content_from depth_from]; try done.
  by rewrite string_app_nil_r.
Qed.

Lemma exec_content o σ d :
  indent (pr σ) = tabs d →
  (∀ ord file, o ≠ OpWriteTo ord file) →
  w (pr (exec o σ).2) = w (pr σ) +:+ content_from d [o].
Proof.
  intros Hd Hno.
  destruct o as [n raw|j|format a| | | |ord file]; cbn [exec content_from];
    rewrite ?string_app_nil_r; try done.
  - destruct (closures σ !! j) as [hj|]; [|done].
    unfold Import_call. by repeat case_match; simplify_eq/=.
  - cbn. by rewrite Hd.
  - unfold printer_Out. by case_decide.
  - by destruct (Hno ord file).
Qed.

Lemma run_content ops σ d :
  indent (pr σ) = tabs d →
  (∀ a ord file, ops !! a ≠ Some (OpWriteTo ord file)) →
  w (pr (run ops σ).2) = w (pr σ) +:+ content_from d ops.
Proof.
  revert σ d. induction ops as [|o ops IH]; intros σ d Hd Hno.
  { cbn. by rewrite string_app_nil_r. }
  rewrite run_cons, content_from_cons. cbn [snd].
  rewrite (IH _ (depth_from d [o])).
  - rewrite (exec_content o σ d); [by rewrite string_app_assoc | done |].
    intros ord file ->. by apply (Hno 0%nat ord file).
  - by apply exec_depth.
  - intros a ord file. apply (Hno (S a)).
Qed.

(** X13. Until it is written out, the content is the lines of the calls
    of [P] in their order, each formatted behind the indentation of its
    moment; no other call touches it. *)
Theorem content_is_the_lines_printed pkg ops :
  (∀ a ord file, ops !! a ≠ Some (OpWriteTo ord file)) →
  w (pr (run ops (init pkg)).2) = content_from 0 ops.
Proof.
  intros Hno. by rewrite (run_content ops (init pkg) 0%nat).
Qed.

End ContentExtras.

(** ** Serialisation, further *)

Lemma range_pathToQual_is_Some ord v :
  v ∈ ord.*2 → is_Some (range_pathToQual ord !! v).
Proof.
  induction ord as [|[k' v'] ord IH] using rev_ind; [by intros ?%elem_of_nil|].
  rewrite fmap_app, range_pathToQual_snoc. cbn [fst snd fmap list_fmap].
  intros Hin. destruct (decide (v' = v)) as [->|Hne].
  - rewrite lookup_insert_eq. eauto.
  - rewrite lookup_insert_ne by done. apply IH.
    apply elem_of_app in Hin as [?|Hin%list_elem_of_singleton]; [done|].
    by destruct Hne.
Qed.

(** X14. The import block of any registry, in whatever order the map is
    visited: as many lines as the registry has entries; the paths of the
    lines are the registered paths in ascending order, a path as often as
    it is registered; and the key on a line is a key the path is
    registered under. *)
Theorem import_block_lists_registered_paths (m : gmap string string) ord :
  ord ≡ₚ map_to_list m →
  ∃ L, import_block ord
       = nl +:+ "import (" +:+ nl
         +:+ concat_strings (entry_line <$> L)
         +:+ ")" +:+ nl
     ∧ L.*2 = sort_Strings (map_to_list m).*2
     ∧ Sorted String.le L.*2
     ∧ length L = size m
     ∧ Forall (λ e, m !! e.1 = Some e.2) L.
Proof.
  intros Hperm.
  set (g := λ v, (default "" (range_pathToQual ord !! v), v)).
  exists (g <$> sort_Strings (range_paths ord)).
  assert ((g <$> sort_Strings (range_paths ord)).*2 = sort_Strings (range_paths ord))
    as Hpaths.
  { rewrite <- list_fmap_compose. apply list_fmap_id. }
  split_and!.
  - unfold import_block. by rewrite <- list_fmap_compose.
  - rewrite Hpaths. unfold range_paths. apply sort_Strings_perm. by rewrite Hperm.
  - rewrite Hpaths. apply Sorted_merge_sort; apply _.
  - rewrite length_fmap. unfold sort_Strings, range_paths.
    rewrite merge_sort_Permutation, length_fmap, Hperm.
    apply length_map_to_list.
  - apply Forall_fmap, Forall_forall. intros v Hv. cbn.
    assert (v ∈ ord.*2) as Hin.
    { unfold sort_Strings, range_paths in Hv.
      by rewrite merge_sort_Permutation in Hv. }
    destruct (range_pathToQual_is_Some ord v Hin) as [k Hk]. rewrite Hk. cbn.
    apply range_pathToQual_elem in Hk. rewrite Hperm in Hk.
    by apply elem_of_map_to_list.
Qed.

Section WriteToExtras.
Context `{GoLib}.



End WriteToExtras.

(** ** The further properties on concrete runs *)

Section FurtherExamples.
Local Existing Instance example_lib.

Lemma makeFullpath_ascii_witness :
  ascii_only "example.com/pkg/fmt" = true
  ∧ makeFullpath "example.com/pkg/fmt" = "example_com_pkg_fmt"
  ∧ String.length (makeFullpath "example.com/pkg/fmt") = 19%nat.
Proof.
  destruct (makeFullpath_ascii "example.com/pkg/fmt" eq_refl) as [Hkey Hlen].
  split_and!; [done | by rewrite Hkey | done].
Defined.

Lemma makeFullpath_ascii_idempotent_witness :
  ascii_only "example.com/pkg/fmt" = true
  ∧ makeFullpath (makeFullpath "example.com/pkg/fmt")
    = makeFullpath "example.com/pkg/fmt".
Proof.
  split; [done|].
  by destruct (makeFullpath_ascii_idempotent "example.com/pkg/fmt" eq_refl)
    as (_ & _ & ->).
Defined.

Lemma registry_entries_come_from_calls_witness :
  imports (pr (run collision_ops (init "main")).2) !! "example_com_pkg_fmt"
    = Some "example.com/pkg/fmt"
  ∧ ∃ a i h, collision_ops !! a = Some (OpCall i)
      ∧ closures (state_before collision_ops (init "main") a) !! i = Some h
      ∧ outcome_at collision_ops (init "main") a
        = Some (Return (VString "example_com_pkg_fmt"))
      ∧ canonical h = "example.com/pkg/fmt"
      ∧ ("example_com_pkg_fmt" = name h
         ∨ "example_com_pkg_fmt" = makeFullpath "example.com/pkg/fmt").
Proof.
  split; [done|].
  by apply (registry_entries_come_from_calls "main" collision_ops).
Defined.

Lemma no_call_no_import_block_witness :
  (∀ a i, indent_ops !! a ≠ Some (OpCall i))
  ∧ imports (pr (run indent_ops (init "main")).2) = ∅
  ∧ top_of (pr (run indent_ops (init "main")).2) []
    = "// Code generated by goderive DO NOT EDIT." +:+ nl
      +:+ nl
      +:+ "package " +:+ "main" +:+ nl.
Proof.
  assert (∀ a i, indent_ops !! a ≠ Some (OpCall i)) as Hno.
  { intros a i. by do 9 (destruct a as [|a]; [done|]). }
  split; [done|]. by apply (no_call_no_import_block "main" indent_ops []).
Defined.

Lemma Import_call_again_changes_nothing_witness :
  (Import_call (mk_Import "fmt" "example.com/pkg/fmt")
     (pr (state_before collision_ops (init "main") 3))).1.1
    = Return "example_com_pkg_fmt"
  ∧ Import_call
      (Import_call (mk_Import "fmt" "example.com/pkg/fmt")
         (pr (state_before collision_ops (init "main") 3))).1.2
      (Import_call (mk_Import "fmt" "example.com/pkg/fmt")
         (pr (state_before collision_ops (init "main") 3))).2
    = (Return "example_com_pkg_fmt",
       (Import_call (mk_Import "fmt" "example.com/pkg/fmt")
          (pr (state_before collision_ops (init "main") 3))).1.2,
       (Import_call (mk_Import "fmt" "example.com/pkg/fmt")
          (pr (state_before collision_ops (init "main") 3))).2).
Proof.
  split; [done|]. by apply Import_call_again_changes_nothing.
Defined.

Lemma resolve_panic_is_permanent_witness :
  (5 < 7)%nat
  ∧ declared (state_before conflict_again_ops (init "main") 5) 2 "x" "b/c"
  ∧ declared (state_before conflict_again_ops (init "main") 7) 2 "x" "b/c"
  ∧ outcome_at conflict_again_ops (init "main") 5
    = Some (Panic "non unique fullpath: b.c != b/c")
  ∧ outcome_at conflict_again_ops (init "main") 7
    = Some (Panic "non unique fullpath: b.c != b/c").
Proof.
  assert (declared (state_before conflict_again_ops (init "main") 5) 2 "x" "b/c")
    as H1 by (by exists (mk_Import "x" "b/c")).
  assert (declared (state_before conflict_again_ops (init "main") 7) 2 "x" "b/c")
    as H2 by (by exists (mk_Import "x" "b/c")).
  split_and!; [lia | done | done | done |].
  apply (resolve_panic_is_permanent (init "main") conflict_again_ops 5 7 2 2
           "x" "b/c"); [lia | done..].
Defined.

Lemma consistent_names_get_preferred_names_witness :
  consistent_names (closures (run alias_ops (init "main")).2) canonical
  ∧ outcome_at alias_ops (init "main") 3 = Some (Return (VString "f")).
Proof.
  assert (consistent_names (closures (run alias_ops (init "main")).2) canonical)
    as Hcons.
  { assert (closures (run alias_ops (init "main")).2
            = [mk_Import "fmt" "fmt"; mk_Import "f" "fmt"]) as Hcl by (by vm_compute).
    intros i j hi hj Hi Hj Hname. rewrite Hcl in Hi, Hj.
    destruct i as [|[|i]]; destruct j as [|[|j]]; by simplify_eq/=. }
  split; [done|].
  by apply (consistent_names_get_preferred_names "main" alias_ops 3 1
              (mk_Import "f" "fmt")).
Defined.

Lemma HasContent_iff_P_called_before_witness :
  indent_ops !! 7%nat = Some OpHasContent
  ∧ ∃ b, outcome_at indent_ops (init "main") 7 = Some (Return (VBool b))
      ∧ (b = true ↔ ∃ a' format args,
           (a' < 7)%nat ∧ indent_ops !! a' = Some (OpP format args)).
Proof.
  split; [done|]. by apply (HasContent_iff_P_called_before "main" indent_ops 7).
Defined.

Lemma content_is_the_lines_printed_witness :
  (∀ a ord file, indent_ops !! a ≠ Some (OpWriteTo ord file))
  ∧ w (pr (run indent_ops (init "main")).2)
    = "func f() {" +:+ nl +:+ tab +:+ "g()" +:+ nl +:+ "}" +:+ nl.
Proof.
  assert (∀ a ord file, indent_ops !! a ≠ Some (OpWriteTo ord file)) as Hno.
  { intros a ord file. by do 9 (destruct a as [|a]; [done|]). }
  split; [done|].
  by rewrite (content_is_the_lines_printed "main" indent_ops Hno).
Defined.

Lemma import_block_lists_registered_paths_witness :
  [("fmt", "fmt"); ("f", "fmt")]
    ≡ₚ map_to_list (imports (pr (run alias_ops (init "main")).2))
  ∧ ∃ L, import_block [("fmt", "fmt"); ("f", "fmt")]
         = nl +:+ "import (" +:+ nl
           +:+ concat_strings (entry_line <$> L)
           +:+ ")" +:+ nl
       ∧ L.*2 = sort_Strings (map_to_list (imports (pr (run alias_ops (init "main")).2))).*2
       ∧ Sorted String.le L.*2
       ∧ length L = size (imports (pr (run alias_ops (init "main")).2))
       ∧ Forall (λ e, imports (pr (run alias_ops (init "main")).2) !! e.1 = Some e.2) L.
Proof.
  assert ([("fmt", "fmt"); ("f", "fmt")]
            ≡ₚ map_to_list (imports (pr (run alias_ops (init "main")).2))) as Hperm
    by (by vm_compute).
  split; [done|]. by apply import_block_lists_registered_paths.
Defined.

End FurtherExamples.
